(** * l2met, librato outlet: a shallow embedding of [librato/main.go]

    The outlet is a pipeline of goroutines connected by channels:
    [scheduleFetch] -> inbox -> [convert] -> lms -> [batch] -> outbox -> [post].
    Each stage is embedded as a function from what the stage receives
    (channel items, clock ticks, replies of the database or of the HTTP
    endpoint) to what it emits (channel items, log lines, requests).
    Channel capacity and blocking are not part of the embedding, nor are
    the timing and queue-depth lines of [utils.MeasureT] and [report]. *)

From Stdlib Require Import ZArith Lia Ascii String SpecFloat DecimalString DecimalN.
From stdpp Require Import gmap strings list fin_maps sorting.

Local Open Scope string_scope.
Local Open Scope list_scope.
Local Open Scope nat_scope.

(** ** Data model *)

(** [type LM struct]: one librato measurement. [Time] is an [int64]. *)
Record LM := mkLM {
  Name : string;
  Time : Z;
  Val : string;
  Source : string;
  Token : string;
}.

(** A Go slice of [*LM]: the visible elements and the capacity of the
    backing array. The pointers held by the pipeline are never nil
    ([convert] only sends [&LM{...}]), so an element is the record itself. *)
Record slice := mkSlice {
  elems : list LM;
  capacity : nat;
}.

Definition len (s : slice) : nat := length (elems s).

(** The zero value of a slice type ([nil]); what indexing a map at an
    absent key yields. *)
Definition nil_slice : slice := mkSlice [] 0.

(** ** The batcher ([func batch]) *)

(** What the Go implementation leaves open and the batcher meets:
    the capacity [append] picks when it has to reallocate, and the order in
    which [range] visits the keys of a map (each key once). *)
Class GoRuntime := {
  growcap : nat → nat;
  range_keys : gmap string slice → list string;
  range_keys_perm : ∀ m, range_keys m ≡ₚ (map_to_list m).*1;
}.

(** The iteration order used to run the model on concrete inputs. *)
#[export] Instance listed_order : GoRuntime := {|
  growcap c := 2 * c;
  range_keys m := (map_to_list m).*1;
  range_keys_perm m := reflexivity _;
|}.

Inductive trigger := TimeTrigger | CapTrigger.

(** One [outbox <- v], tagged with the [select] case that sent it. *)
Record flush := Flush {
  cause : trigger;
  sent : slice;
}.

(** The two cases of the [select]: the ticker fired, or a record arrived
    on [lms]. *)
Inductive event :=
  | Tick
  | Recv (lm : LM).

Section Batcher.
Context `{RT : GoRuntime}.

(** [make([]*LM, 1, 50)] followed by [batchMap[lm.Token][0] = lm]. *)
Definition make1 (lm : LM) : slice := mkSlice [lm] 50.

(** [append(s, lm)]: in place while there is room, otherwise a larger
    backing array. *)
Definition append (s : slice) (lm : LM) : slice :=
  if len s <? capacity s
  then mkSlice (elems s ++ [lm]) (capacity s)
  else mkSlice (elems s ++ [lm]) (max (len s + 1) (growcap (capacity s))).

(** [batchMap[k]]: the zero value when [k] is absent. *)
Definition index (m : gmap string slice) (k : string) : slice :=
  default nil_slice (m !! k).

(** The [if !present { ... } else { ... }] of the receive case. *)
Definition store_record (m : gmap string slice) (lm : LM) : gmap string slice :=
  match m !! Token lm with
  | None => <[Token lm := make1 lm]> m
  | Some _ => <[Token lm := append (index m (Token lm)) lm]> m
  end.

(** The body of [for k, v := range batchMap], over the keys in the order
    the runtime visits them. *)
Fixpoint purge (ks : list string) (m : gmap string slice)
  : gmap string slice * list flush :=
  match ks with
  | [] => (m, [])
  | k :: ks' =>
      match m !! k with
      | Some v =>
          let '(m', out) := purge ks' (delete k m) in
          (m', (if 0 <? len v then [Flush TimeTrigger v] else []) ++ out)
      | None => purge ks' m
      end
  end.

(** One iteration of the [for { select { ... } }] loop. *)
Definition batch_step (m : gmap string slice) (e : event)
  : gmap string slice * list flush :=
  match e with
  | Tick => purge (range_keys m) m
  | Recv lm =>
      let m1 := store_record m lm in
      if len (index m1 (Token lm)) =? capacity (index m1 (Token lm))
      then (delete (Token lm) m1, [Flush CapTrigger (index m1 (Token lm))])
      else (m1, [])
  end.

(** The loop, from a given map, over a finite prefix of the events. *)
Fixpoint batch_loop (m : gmap string slice) (evs : list event)
  : gmap string slice * list flush :=
  match evs with
  | [] => (m, [])
  | e :: evs' =>
      let '(m1, out1) := batch_step m e in
      let '(m2, out2) := batch_loop m1 evs' in
      (m2, out1 ++ out2)
  end.

(** [func batch]: the loop started on [make(map[string][]*LM)]. *)
Definition batch (evs : list event) : gmap string slice * list flush :=
  batch_loop ∅ evs.

(** The records taken from [lms]. *)
Definition received (evs : list event) : list LM :=
  omap (λ e, match e with Recv lm => Some lm | Tick => None end) evs.

(** The records held in the map, and those pushed to the outbox. *)
Definition held (m : gmap string slice) : list LM :=
  concat (elems <$> (map_to_list m).*2).

Definition flushed (out : list flush) : list LM :=
  concat (elems <$> (sent <$> out)).

(** The invariant of the map between two iterations. *)
Definition batch_inv (m : gmap string slice) : Prop :=
  ∀ k s, m !! k = Some s →
    capacity s = 50 ∧ 1 ≤ len s ≤ 49 ∧ Forall (λ lm, Token lm = k) (elems s).

(** All records of a slice carry one token. *)
Definition homogeneous (s : slice) : Prop :=
  ∃ tok, Forall (λ lm, Token lm = tok) (elems s).

(** What holds of a batch pushed to the outbox. *)
Definition well_flushed (f : flush) : Prop :=
  capacity (sent f) = 50
  ∧ 1 ≤ len (sent f) ≤ 50
  ∧ (cause f = CapTrigger ↔ len (sent f) = 50)
  ∧ homogeneous (sent f).

End Batcher.

(** ** Machine integers and package [time] *)

Local Open Scope Z_scope.

(** Two's-complement wrap-around of an [int64] result. *)
Definition wrap64 (z : Z) : Z := (z + 2 ^ 63) mod 2 ^ 64 - 2 ^ 63.

Definition int64_add (a b : Z) : Z := wrap64 (a + b).

(** The values of type [int64]. *)
Definition int64 (z : Z) : Prop := - 2 ^ 63 ≤ z < 2 ^ 63.

Module time.

(** A [time.Time] as the instant it denotes: seconds since the Unix
    epoch and nanoseconds within the second. The location a Go [Time]
    carries is kept apart: it only matters to the methods that read the
    wall clock, which take it as an argument. *)
Record Time := mkTime { sec : Z; nsec : Z }.

(** [time.Duration] is an [int64] count of nanoseconds. *)
Definition Second : Z := 1000000000.
Definition Minute : Z := 60 * Second.

(** The zero [Time], January 1 of year 1. *)
Definition zero : Time := mkTime (-62135596800) 0.

Definition Unix_of (t : Time) : Z := sec t.

(** [t.UnixNano()]: [(t.sec)*1e9 + int64(t.nsec)] on [int64]. *)
Definition UnixNano (t : Time) : Z := wrap64 (sec t * 1000000000 + nsec t).

(** [time.Unix(sec, nsec)], with its normalisation of [nsec]. *)
Definition Unix (s n : Z) : Time :=
  if (n <? 0) || (1000000000 <=? n) then
    let q := Z.quot n 1000000000 in
    let s1 := wrap64 (s + q) in
    let n1 := n - q * 1000000000 in
    if n1 <? 0 then mkTime (wrap64 (s1 - 1)) (n1 + 1000000000) else mkTime s1 n1
  else mkTime s n.

(** [t.Add(d)]: the seconds and the nanoseconds of [d] are added apart
    and a carry is passed on. *)
Definition Add (t : Time) (d : Z) : Time :=
  let s := sec t + Z.quot d 1000000000 in
  let n := nsec t + Z.rem d 1000000000 in
  if 1000000000 <=? n then mkTime (s + 1) (n - 1000000000)
  else if n <? 0 then mkTime (s - 1) (n + 1000000000)
  else mkTime s n.

(** A [*time.Location]: the offset of the zone, in seconds east of UTC,
    in force at a Unix second. *)
Definition Location : Type := Z → Z.

Definition UTC : Location := λ _, 0.

Definition Minute_of (loc : Location) (t : Time) : Z :=
  ((sec t + loc (sec t)) / 60) mod 60.

(** The position of an instant on the time line, for comparisons. *)
Definition instant (t : Time) : Z := sec t * 1000000000 + nsec t.

End time.

Module utils.

(** [RoundTime]: [time.Unix(0, int64((time.Duration(t.UnixNano())/d)*d))].
    Go's [/] on integers truncates toward zero. *)
Definition RoundTime (t : time.Time) (d : Z) : time.Time :=
  time.Unix 0 (wrap64 (Z.quot (time.UnixNano t) d * d)).

End utils.

(** ** Package [store], as far as the outlet uses it *)

Module store.

(** [store.Bucket]. The sample values are [float64]s. *)
Record Bucket := mkBucket {
  Id : Z;
  Name : string;
  Source : string;
  Token : string;
  Time : time.Time;
  Vals : list spec_float;
}.

(** [&store.Bucket{Id: id}]: every other field has its zero value. *)
Definition placeholder (id : Z) : Bucket := mkBucket id "" "" "" time.zero [].

(** The methods of package [store] that the outlet calls. [Get] loads the
    bucket in place and returns an error or nil; here it yields the error
    or the loaded bucket. [Loc] is the location of the [Time] a loaded
    bucket holds. [token_Get] is [store.Token.Get], whose result the
    outlet ignores: it yields the [User] and [Pass] fields it leaves
    behind. *)
Class Store := {
  Get : Bucket → string + Bucket;
  Loc : Bucket → time.Location;
  Last : Bucket → spec_float;
  Min : Bucket → spec_float;
  Max : Bucket → spec_float;
  Mean : Bucket → spec_float;
  Median : Bucket → spec_float;
  P95 : Bucket → spec_float;
  P99 : Bucket → spec_float;
  Count : Bucket → Z;
  Sum : Bucket → spec_float;
  token_Get : string → string * string;
}.

End store.

(** ** Number formatting ([ff], [fi], [ft]) *)

Definition digit_char (d : Z) : ascii := ascii_of_nat (48 + Z.to_nat (d mod 10)).

(** The decimal digits of a natural number, without leading zeros. *)
Definition decimal (n : N) : string := NilZero.string_of_uint (N.to_uint n).

(** [fi]: [strconv.FormatInt(int64(x), 10)]. *)
Definition fi (x : Z) : string :=
  (if x <? 0 then "-" else "") +:+ decimal (Z.abs_N x).

(** The integer nearest to [num / den], ties to the even one, as
    [strconv]'s decimal rounding does ([den] positive). *)
Definition round_half_even (num den : Z) : Z :=
  let q := num / den in
  let r := num mod den in
  if 2 * r <? den then q
  else if 2 * r =? den then (if Z.even q then q else q + 1)
  else q + 1.

(** [m * 2^e], in units of [10^-5], rounded. *)
Definition scaled5 (m : positive) (e : Z) : Z :=
  if 0 <=? e then Z.pos m * 2 ^ e * 100000
  else round_half_even (Z.pos m * 100000) (2 ^ (- e)).

(** The five digits after the point. *)
Definition frac5 (q : Z) : string :=
  String (digit_char (q / 10000))
    (String (digit_char (q / 1000))
       (String (digit_char (q / 100))
          (String (digit_char (q / 10))
             (String (digit_char q) EmptyString)))).

Definition fixed5 (neg : bool) (q : Z) : string :=
  (if neg then "-" else "") +:+ decimal (Z.to_N (q / 100000)) +:+ "." +:+ frac5 q.

(** [ff]: [strconv.FormatFloat(x, 'f', 5, 64)]. *)
Definition ff (x : spec_float) : string :=
  match x with
  | S754_nan => "NaN"
  | S754_infinity false => "+Inf"
  | S754_infinity true => "-Inf"
  | S754_zero s => fixed5 s 0
  | S754_finite s m e => fixed5 s (scaled5 m e)
  end.

(** [ft]: [t.Unix() + 59] on [int64]. *)
Definition ft (t : time.Time) : Z := int64_add (time.Unix_of t) 59.

Definition is_digit (c : ascii) : bool :=
  (48 <=? nat_of_ascii c)%nat && (nat_of_ascii c <=? 57)%nat.

Definition all_digits (s : string) : bool :=
  forallb is_digit (list_ascii_of_string s).

(** The shape [-ddd.ddddd]: an optional sign, at least one digit, a point,
    exactly five digits. *)
Definition decimal5_string (s : string) : Prop :=
  ∃ sign ip fp, s = sign +:+ ip +:+ "." +:+ fp
    ∧ (sign = "" ∨ sign = "-")
    ∧ ip ≠ "" ∧ all_digits ip = true
    ∧ String.length fp = 5%nat ∧ all_digits fp = true.

(** The shape of a base-10 integer: an optional sign and at least one digit. *)
Definition integer_string (s : string) : Prop :=
  ∃ sign ds, s = sign +:+ ds
    ∧ (sign = "" ∨ sign = "-")
    ∧ ds ≠ "" ∧ all_digits ds = true.

Definition is_finite (x : spec_float) : bool :=
  match x with
  | S754_zero _ | S754_finite _ _ _ => true
  | _ => false
  end.

(** ** What the stages do besides passing items on *)

(** The lines written with [fmt.Printf], by their [at=] tag and arguments. *)
Inductive logline :=
  | log_acquired_lock (p max : Z)
  | log_start_fetch (minute : Z)
  | log_error (err : string)
  | log_bucket_no_vals (name : string)
  | log_process_bucket (minute : Z) (name : string)
  | log_empty_metrics_error
  | log_json_marshal_error (err : string)
  | log_empty_body_error (body : string)
  | log_post_metric (name source : string) (n : nat)
  | log_request_error (err body : string)
  | log_do_error (err body : string)
  | log_librato_status_error (status : Z).

Inductive effect :=
  | Printf (l : logline)
  | Sleep (d : Z)                               (* time.Sleep *)
  | LockQuery (p : Z)                           (* pg_try_advisory_lock($1) *)
  | TokenGet (id : string)                      (* token.Get() *)
  | HttpDo (body user pass : string)            (* http.DefaultClient.Do(req) *)
  | BodyClose                                   (* resp.Body.Close() *)
  | Measure (name : string).                    (* utils.Measure *)

(** ** Conversion ([func convert]) *)

Section Convert.
Context `{ST : store.Store}.

(** The record built for one statistic of the loaded bucket [b]. *)
Definition stat (b : store.Bucket) (suffix val : string) : LM :=
  {| Token := store.Token b; Time := ft (store.Time b);
     Source := store.Source b; Name := store.Name b +:+ suffix; Val := val |}.

(** [convert]: the lines logged and the records sent on [lms], in order. *)
Definition convert (b : store.Bucket) : list logline * list LM :=
  match store.Get b with
  | inl err => ([log_error err], [])
  | inr b =>
      if (length (store.Vals b) =? 0)%nat
      then ([log_bucket_no_vals (store.Name b)], [])
      else
        ([log_process_bucket (time.Minute_of (store.Loc b) (store.Time b))
            (store.Name b)],
         [ stat b ".last" (ff (store.Last b));
           stat b ".min" (ff (store.Min b));
           stat b ".max" (ff (store.Max b));
           stat b ".mean" (ff (store.Mean b));
           stat b ".median" (ff (store.Median b));
           stat b ".perc95" (ff (store.P95 b));
           stat b ".perc99" (ff (store.P99 b));
           stat b ".count" (fi (store.Count b));
           stat b ".sum" (ff (store.Sum b)) ])
  end.

(** The suffixes of the nine statistics, in the order of the sends. *)
Definition suffixes : list string :=
  [".last"; ".min"; ".max"; ".mean"; ".median"; ".perc95"; ".perc99";
   ".count"; ".sum"].

(** [scheduleConvert]: [convert] on every bucket taken from the inbox. *)
Definition scheduleConvert (inbox : list store.Bucket) : list LM :=
  concat ((λ b, (convert b).2) <$> inbox).

End Convert.

(** ** The wire format ([json.Marshal] of [LP]) *)

#[warnings="-register-all"]
Inductive json :=
  | JNum (z : Z)
  | JStr (s : string)
  | JArr (l : list json)
  | JObj (fields : list (string * json)).

(** A string field tagged [omitempty] is left out when it is empty. *)
Definition omitempty (key v : string) : list (string * json) :=
  if String.eqb v "" then [] else [(key, JStr v)].

(** The encoding of one [LM], field by field in declaration order. The
    tags of [Name], [Time], [Val] and [Source] name the keys; the tag of
    [Token] is [json:",omitempty"], which names no key, so the key is the
    field's own name. *)
Definition marshal_LM (lm : LM) : json :=
  JObj ([("name", JStr (Name lm));
         ("measure_time", JNum (Time lm));
         ("value", JStr (Val lm))]
        ++ omitempty "source" (Source lm)
        ++ omitempty "Token" (Token lm)).

(** [type LP struct { Gauges []*LM `json:"gauges"` }]. *)
Definition marshal_LP (gauges : list LM) : json :=
  JObj [("gauges", JArr (marshal_LM <$> gauges))].

Definition keys (j : json) : list string :=
  match j with
  | JObj fields => fields.*1
  | _ => []
  end.

Definition join (sep : string) (l : list string) : string :=
  match l with
  | [] => ""
  | x :: l' => x +:+ fold_right (λ y acc, sep +:+ y +:+ acc) "" l'
  end.

Section Encode.
(** How the encoder escapes the characters of a string; not modelled. *)
Variable escape : string → string.

Definition dquote : string := String (ascii_of_nat 34) EmptyString.

Definition quote (s : string) : string := dquote +:+ escape s +:+ dquote.

(** The text the encoder writes: compact, no white space. *)
Fixpoint render (j : json) : string :=
  match j with
  | JNum z => fi z
  | JStr s => quote s
  | JArr l => "[" +:+ join "," (map render l) +:+ "]"
  | JObj fields =>
      "{" +:+ join "," (map (λ kv, quote kv.1 +:+ ":" +:+ render kv.2) fields) +:+ "}"
  end.

(** [json.Marshal(payload)]: no value of type [LP] makes it fail. *)
Definition json_Marshal (gauges : list LM) : string + string :=
  inr (render (marshal_LP gauges)).

End Encode.

(** ** Delivery ([func post]) *)

(** What one pass of the retry loop meets: [http.NewRequest] fails, the
    round trip fails, or a response with a status code arrives. When the
    round trip fails, [unread] is what the transport has left unread of the
    body buffer [b], a suffix of the body. *)
Inductive attempt :=
  | RequestError (err : string)
  | DoError (err unread : string)
  | Response (status : Z).

Section Post.
Context `{ST : store.Store}.
Variable escape : string → string.

Definition maxRetry : Z := 5.

(** [for i := 0; i <= maxRetry; i++ { ... }], from [i] on; [n] bounds
    the passes left. [http i] is what pass [i] meets. The error lines print
    the buffer [b]: all of the body when no request could be made, the
    unread rest after [Do] has failed. *)
Fixpoint attempts (http : Z → attempt) (j user pass : string) (n : nat) (i : Z)
  : list effect :=
  match n with
  | O => []
  | S n' =>
      if i <=? maxRetry then
        match http i with
        | RequestError err =>
            Printf (log_request_error err j) :: attempts http j user pass n' (i + 1)
        | DoError err unread =>
            HttpDo j user pass :: Printf (log_do_error err unread)
              :: attempts http j user pass n' (i + 1)
        | Response status =>
            if Z.quot status 100 =? 2
            then [HttpDo j user pass; BodyClose; Measure "librato-http-post"]
            else
              HttpDo j user pass :: BodyClose
                :: (if i =? maxRetry
                    then [Printf (log_librato_status_error status)]
                    else [])
                ++ attempts http j user pass n' (i + 1)
        end
      else []
  end.

(** The body of [for metrics := range outbox]. *)
Definition post_one (http : Z → attempt) (metrics : list LM) : list effect :=
  if (length metrics <? 1)%nat then [Printf log_empty_metrics_error]
  else
    match metrics with
    | [] => []
    | sampleMetric :: _ =>
        let '(user, pass) := store.token_Get (Token sampleMetric) in
        TokenGet (Token sampleMetric) ::
        match json_Marshal escape metrics with
        | inl err => [Printf (log_json_marshal_error err)]
        | inr j =>
            if (String.length j =? 0)%nat then [Printf (log_empty_body_error j)]
            else
              Printf (log_post_metric (Name sampleMetric) (Source sampleMetric)
                        (length metrics))
                :: attempts http j user pass (Z.to_nat (maxRetry + 1)) 0
        end
    end.

(** [post]: the body on each batch taken from the outbox; [http k] is
    what the endpoint does to the [k]-th batch. *)
Definition post (http : nat → Z → attempt) (outbox : list (list LM)) : list effect :=
  concat (imap (λ k metrics, post_one (http k) metrics) outbox).

(** Observations on what a worker did. *)
Definition is_request (e : effect) : bool :=
  match e with HttpDo _ _ _ => true | _ => false end.

Definition is_credentials (e : effect) : bool :=
  match e with TokenGet _ => true | _ => false end.

Definition is_status_error (e : effect) : bool :=
  match e with Printf (log_librato_status_error _) => true | _ => false end.

Definition requests (tr : list effect) : nat := length (List.filter is_request tr).

Definition ok_status (status : Z) : bool := Z.quot status 100 =? 2.

(** The line logged when a pass fails; for a response it is only logged
    at the last pass. *)
Definition last_failure (j : string) (a : attempt) : effect :=
  match a with
  | RequestError err => Printf (log_request_error err j)
  | DoError err unread => Printf (log_do_error err unread)
  | Response status => Printf (log_librato_status_error status)
  end.

(** The attempt fails: transport error or a response that is not 2xx. *)
Definition failing (a : attempt) : Prop :=
  match a with
  | RequestError _ => False
  | DoError _ _ => True
  | Response status => ok_status status = false
  end.

End Post.

(** ** Partition lock ([func lockPartition]) *)

(** [sql.NullBool], as [rows.Scan(&result)] leaves it. *)
Record NullBool := mkNullBool { Bool : bool; Valid : bool }.

(** The reply to [select pg_try_advisory_lock($1)]. *)
Inductive lock_reply :=
  | LockError (err : string)
  | LockRows (rows : list NullBool).

Section Lock.
Variable maxPartitions : Z.

(** [pg pass p]: the reply to the query for partition [p] in the
    [pass]-th scan. *)
Variable pg : nat → Z → lock_reply.

(** [for rows.Next() { ... }]: is there a row that grants the lock? *)
Fixpoint scan_rows (rows : list NullBool) : bool :=
  match rows with
  | [] => false
  | result :: rows' => if Valid result && Bool result then true else scan_rows rows'
  end.

Definition granted (r : lock_reply) : bool :=
  match r with
  | LockError _ => false
  | LockRows rows => scan_rows rows
  end.

(** [for p := ...; p < maxPartitions; p++ { ... }], from [p] on. *)
Fixpoint scan (pass : nat) (n : nat) (p : Z) : list effect * option Z :=
  match n with
  | O => ([], None)
  | S n' =>
      match pg pass p with
      | LockError _ =>
          let '(tr, r) := scan pass n' (p + 1) in (LockQuery p :: tr, r)
      | LockRows rows =>
          if scan_rows rows
          then ([LockQuery p; Printf (log_acquired_lock p maxPartitions)], Some p)
          else let '(tr, r) := scan pass n' (p + 1) in (LockQuery p :: tr, r)
      end
  end.

(** The outer [for { ... }], which has no exit but the [return p, nil]:
    [fuel] bounds the scans made, and [None] means it is still looping.
    The result is the pair of the partition and the error ([None] is
    [nil]). *)
Fixpoint lockPartition_from (fuel : nat) (pass : nat)
  : list effect * option (Z * option string) :=
  match fuel with
  | O => ([], None)
  | S fuel' =>
      let '(tr, r) := scan pass (Z.to_nat maxPartitions) 0 in
      match r with
      | Some p => (tr, Some (p, None))
      | None =>
          let '(tr', r') := lockPartition_from fuel' (S pass) in
          (tr ++ Sleep (10 * time.Second) :: tr', r')
      end
  end.

Definition lockPartition (fuel : nat) : list effect * option (Z * option string) :=
  lockPartition_from fuel 0.

(** What a scan that grants nothing leaves behind. *)
Definition idle_scan : list effect :=
  (LockQuery <$> seqZ 0 maxPartitions) ++ [Sleep (10 * time.Second)].

End Lock.

(** ** Discovery ([scheduleFetch], [fetch], [scanBuckets]) *)

(** A row of table [buckets], as far as the query reads it. *)
Record Row := mkRow { row_id : Z; row_time : time.Time }.

(** [order by time desc]: [newer r1 r2] lets [r1] come before [r2]. *)
Definition newer (r1 r2 : Row) : Prop :=
  time.instant (row_time r2) ≤ time.instant (row_time r1).

#[export] Instance newer_dec : RelDecision newer.
Proof. intros r1 r2. unfold newer. apply _. Defined.

#[export] Instance newer_trans : Transitive newer.
Proof. intros x y z. unfold newer. lia. Qed.

#[export] Instance newer_total : Total newer.
Proof. intros x y. unfold newer. lia. Qed.

(** How the database orders the rows of one answer: newest first, rows of
    equal time in an order of its choice. Each query has its own. *)
Class RowOrder := {
  order_rows : list Row → list Row;
  order_rows_perm : ∀ rows, order_rows rows ≡ₚ rows;
  order_rows_sorted : ∀ rows, StronglySorted newer (order_rows rows);
}.

(** The order used to run the model on concrete tables: a merge sort of
    the table as listed. *)
#[export] Instance listed_rows : RowOrder := {|
  order_rows := merge_sort newer;
  order_rows_perm := merge_sort_Permutation newer;
  order_rows_sorted := StronglySorted_merge_sort newer;
|}.

Section Fetch.
Context `{O : RowOrder}.
(** The location of the ticks: the local zone of the process. *)
Variable Local : time.Location.
Variables partitionId maxPartitions processInterval : Z.

(** The [where] clause: [time >= $1 and time < $2 and MOD(id, $3) = $4].
    SQL's [MOD] takes the sign of the dividend, like [Z.rem]. *)
Definition selected (min max : time.Time) (r : Row) : Prop :=
  time.instant min ≤ time.instant (row_time r) < time.instant max
  ∧ Z.rem (row_id r) maxPartitions = partitionId.

#[export] Instance selected_dec min max r : Decision (selected min max r).
Proof. unfold selected. apply _. Defined.

(** [pg.Query(s, min, max, maxPartitions, partitionId)] on a table;
    [None] is a database that does not answer. [MOD] by zero is an error
    of the query. *)
Definition pg_Query (db : option (list Row)) (min max : time.Time)
  : string + list Row :=
  match db with
  | None => inl "query failed"
  | Some rows =>
      if maxPartitions =? 0 then inl "division by zero"
      else inr (order_rows (filter (selected min max) rows))
  end.

(** [scanBuckets]: the ids sent on the channel before it is closed; none
    when the query fails. The column [id] holds integers, so
    [rows.Scan(&id)] succeeds on every row. *)
Definition scanBuckets (db : option (list Row)) (min max : time.Time) : list Z :=
  match pg_Query db min max with
  | inl _ => []
  | inr rows => row_id <$> rows
  end.

Definition window (t : time.Time) : time.Time * time.Time :=
  let max := utils.RoundTime t time.Minute in
  let min := time.Add max (- time.Minute) in
  (min, max).

(** [fetch]: the line logged and the buckets sent on the inbox. *)
Definition fetch (db : option (list Row)) (t : time.Time)
  : list logline * list store.Bucket :=
  let '(min, max) := window t in
  ([log_start_fetch (time.Minute_of Local t)],
   store.placeholder <$> scanBuckets db min max).


(** The mathematical floor of an instant to the minute. *)
Definition floor_minute (t : time.Time) : time.Time :=
  time.mkTime (60 * (time.sec t / 60)) 0.

End Fetch.

(** ** A statistics source to run the model on *)

(** Modelled from the spec: package [store] (bucket storage and account
    registry) is not among the sources. Hydration "loads its sample values
    and exposes: count, sum, mean, median, min, max, last value, 95th and
    99th percentiles" and "fails if the bucket cannot be loaded"; credential
    resolution "returns a username/secret pair" for a token. The
    percentiles are read off the sorted samples by rank. Only the
    examples below use this instance: the properties are proved for every
    [store.Store]. *)
Section SampleStore.
(** The buckets in storage and the accounts of the registry. *)
Variable table : list store.Bucket.
Variable accounts : string → string * string.

Definition f64_add : spec_float → spec_float → spec_float := SFadd 53 1024.
Definition f64_div : spec_float → spec_float → spec_float := SFdiv 53 1024.
Definition f64_of_nat (n : nat) : spec_float :=
  binary_normalize 53 1024 (Z.of_nat n) 0 false.

Definition f64_le (x y : spec_float) : Prop := SFleb x y = true.

#[local] Instance f64_le_dec : RelDecision f64_le.
Proof. intros x y. unfold f64_le. apply _. Defined.

Definition ranked (b : store.Bucket) (num den : nat) : spec_float :=
  default (S754_zero false)
    (merge_sort f64_le (store.Vals b)
       !! (length (store.Vals b) * num / den)%nat).

Definition sample_sum (b : store.Bucket) : spec_float :=
  fold_left f64_add (store.Vals b) (S754_zero false).

Definition sample_Get (b : store.Bucket) : string + store.Bucket :=
  match List.find (λ b', store.Id b' =? store.Id b) table with
  | Some b' => inr b'
  | None => inl "bucket not found"
  end.

Definition sample_store : store.Store := {|
  store.Get := sample_Get;
  store.Loc _ := time.UTC;
  store.Last b := List.last (store.Vals b) (S754_zero false);
  store.Min b := ranked b 0 1;
  store.Max b := List.last (merge_sort f64_le (store.Vals b)) (S754_zero false);
  store.Mean b := f64_div (sample_sum b) (f64_of_nat (length (store.Vals b)));
  store.Median b := ranked b 1 2;
  store.P95 b := ranked b 95 100;
  store.P99 b := ranked b 99 100;
  store.Count b := Z.of_nat (length (store.Vals b));
  store.Sum := sample_sum;
  store.token_Get := accounts;
|}.

End SampleStore.

(** The bucket of the scenario of the spec: id 4, samples 1, 2, 3, 4, 5,
    window starting at 10:00:00 of some day (36000 s after midnight). *)
Definition bucket4 : store.Bucket :=
  store.mkBucket 4 "web.latency" "web.1" "abc" (time.mkTime 36000 0)
    [S754_finite false 1 0; S754_finite false 2 0; S754_finite false 3 0;
     S754_finite false 4 0; S754_finite false 5 0].

(** A stored bucket without samples. *)
Definition bucket6 : store.Bucket :=
  store.mkBucket 6 "web.errors" "web.1" "abc" (time.mkTime 36000 0) [].

Definition store4 : store.Store :=
  sample_store [bucket4; bucket6] (λ tok, ("user@" +:+ tok, "secret")).

(** ** Inputs to run the delivery worker on *)

(** An endpoint that never answers, the request having been written each
    time, and one that always answers 503. *)
Definition always_timeout : Z → attempt := λ _, DoError "timeout" "".
Definition always_503 : Z → attempt := λ _, Response 503.

(** An endpoint that answers 503 twice and then 200. *)
Definition third_time_lucky : Z → attempt :=
  λ i, if i <? 2 then Response 503 else Response 200.

(** The record [convert] makes of the last sample of [bucket4]. *)
Definition last4 : LM := stat bucket4 ".last" "5.00000".

(** ** Inputs to run discovery on *)

(** Buckets 4 and 6 in the minute that starts at 35940 s, bucket 5 (of
    another partition) in the same minute, bucket 8 in the next one. *)
Definition rows4 : list Row :=
  [mkRow 4 (time.mkTime 35950 0); mkRow 5 (time.mkTime 35960 0);
   mkRow 6 (time.mkTime 35990 0); mkRow 8 (time.mkTime 36001 0)].

(** A tick five seconds into the minute that starts at 36000 s. *)
Definition tick5 : time.Time := time.mkTime 36005 250.

(** An instant thirty seconds before the Unix epoch, 1969-12-31 23:59:30
    UTC. *)
Definition tick1969 : time.Time := time.mkTime (-30) 0.


(** ** Inputs to run the batcher and the lock on *)

(** 51 records of account [abc], one of account [xyz], then a tick. *)
Definition fifty_one_and_a_tick : list event :=
  replicate 51 (Recv last4) ++ [Recv (mkLM "db.size.last" 36059 "7.00000" "" "xyz"); Tick].

(** A database that grants no lock in the first scan and partition 1 in
    the second; its query for partition 0 fails. *)
Definition second_scan_grants_1 : nat → Z → lock_reply :=
  λ pass p,
    if p =? 0 then LockError "connection reset"
    else if (pass =? 1)%nat && (p =? 1) then LockRows [mkNullBool true true]
    else LockRows [mkNullBool false true].

(** ** Further observations on the batcher and the delivery worker *)

(** The records of account [k] among [l], in order. *)
Definition of_token (k : string) (l : list LM) : list LM :=
  filter (λ lm, Token lm = k) l.

(** The worker reports a delivery with [utils.Measure]. *)
Definition is_delivered (e : effect) : bool :=
  match e with Measure _ => true | _ => false end.

Definition deliveries (tr : list effect) : nat := length (List.filter is_delivered tr).

(** A second tick in the minute of [tick5], five seconds later. *)
Definition tick10 : time.Time := time.mkTime 36010 125.

(** A table with a bucket of negative id in the minute before [tick5]. *)
Definition rows_neg : list Row :=
  [mkRow 4 (time.mkTime 35950 0); mkRow (-3) (time.mkTime 35960 0)].

(** ** Package [utils]: the helpers of the HTTP front end *)

Module strings.

(** [strings.Split(s, sep)] for a separator of one byte: the pieces of [s]
    between the separators, at least one piece. *)
Fixpoint Split (sep : ascii) (s : string) : list string :=
  match s with
  | EmptyString => [EmptyString]
  | String a s' =>
      if Ascii.eqb a sep then EmptyString :: Split sep s'
      else match Split sep s' with
           | [] => [String a EmptyString]
           | piece :: pieces => String a piece :: pieces
           end
  end.

(** [strings.SplitN(s, sep, 2)]: [s] cut at the first separator, or [s]
    alone when it has none. *)
Fixpoint SplitN_2 (sep : ascii) (s : string) : list string :=
  match s with
  | EmptyString => [EmptyString]
  | String a s' =>
      if Ascii.eqb a sep then [EmptyString; s']
      else match SplitN_2 sep s' with
           | [] => [String a EmptyString]
           | piece :: pieces => String a piece :: pieces
           end
  end.

(** Does the byte occur in the string, and how often. *)
Fixpoint count (c : ascii) (s : string) : nat :=
  match s with
  | EmptyString => 0%nat
  | String a s' => ((if Ascii.eqb a c then 1 else 0) + count c s')%nat
  end.

End strings.

(** How a Go call ends: it returns a value, returns an error, or panics. *)
Inductive outcome (A : Type) :=
  | Returned (a : A)
  | Failed (err : string)
  | Panicked.

Arguments Returned {A} a.
Arguments Failed {A} err.
Arguments Panicked {A}.

Definition space : ascii := ascii_of_nat 32.
Definition colon : ascii := ascii_of_nat 58.

Section ParseToken.
(** [base64.StdEncoding.DecodeString]: the error or the decoded bytes. *)
Variable DecodeString : string → string + string.

(** [ParseToken], on the header map of the request. Indexing a header
    that is present without a value panics. *)
Definition ParseToken (header : gmap string (list string)) : outcome string :=
  match header !! "Authorization" with
  | None => Failed "Authorization header not set."
  | Some [] => Panicked
  | Some (line :: _) =>
      match strings.SplitN_2 space line with
      | [_; credentials] =>
          match DecodeString credentials with
          | inl _ => Failed "Malformed encoding."
          | inr userPass =>
              match strings.Split colon userPass with
              | [_; pass] => Returned pass
              | _ => Failed "Password not supplied."
              end
          end
      | _ => Failed "Malformed header."
      end
  end.

End ParseToken.

(** What [WriteJson] does to the response writer and the log. *)
Inductive wcall :=
  | LogError (err : string)                 (* fmt.Printf("at=error error=%s\n", err) *)
  | HeaderSet (key value : string)          (* w.Header().Set(key, value) *)
  | WriteHeader (status : Z)                (* w.WriteHeader(status) *)
  | Write (b : string).                     (* w.Write(b) *)

Definition newline : string := String (ascii_of_nat 10) EmptyString.

(** [WriteJsonBytes]. *)
Definition WriteJsonBytes (status : Z) (b : string) : list wcall :=
  [HeaderSet "Content-Type" "application/json; charset=utf-8";
   WriteHeader status; Write b; Write newline].

(** A Go value handed to [json.Marshal]: one the encoder refuses, with its
    error, or one that has an encoding. *)
Inductive value :=
  | Unencodable (err : string)
  | Encodable (j : json).

(** [map[string]string{"error": "Internal Server Error"}]. *)
Definition internal_error : value :=
  Encodable (JObj [("error", JStr "Internal Server Error")]).

Section WriteJson.
Variable escape : string → string.

(** [json.Marshal(data)]; the bytes are nil when it fails. *)
Definition Marshal (data : value) : string + string :=
  match data with
  | Unencodable err => inl err
  | Encodable j => inr (render escape j)
  end.

(** [WriteJson]. It calls itself when the encoding fails; [fuel] bounds the
    depth of the calls, and [None] is a call that needs more. After the
    inner call returns, the outer one goes on to [WriteJsonBytes] with the
    nil bytes. *)
Fixpoint WriteJson (fuel : nat) (status : Z) (data : value) : option (list wcall) :=
  match fuel with
  | O => None
  | S fuel' =>
      match Marshal data with
      | inl err =>
          match WriteJson fuel' 500 internal_error with
          | None => None
          | Some inner => Some (LogError err :: inner ++ WriteJsonBytes status "")
          end
      | inr b => Some (WriteJsonBytes status b)
      end
  end.

End WriteJson.

(** The statuses handed to [w.WriteHeader], call by call. *)
Definition header_calls (calls : list wcall) : list Z :=
  omap (λ c, match c with WriteHeader status => Some status | _ => None end) calls.

(** The bytes handed to [w.Write], call after call. *)
Definition written (calls : list wcall) : string :=
  fold_right (λ c acc, match c with Write b => b +:+ acc | _ => acc end) "" calls.

(** A decoder that knows one credential, [user:secret]. *)
Definition decode_one : string → string + string :=
  λ s, if String.eqb s "dXNlcjpzZWNyZXQ=" then inr "user:secret"
       else inl "illegal base64 data".

(** ** Reading back what [ff] and [fi] write *)

Definition dot : ascii := ascii_of_nat 46.
Definition minus : ascii := ascii_of_nat 45.
Definition plus : ascii := ascii_of_nat 43.

(** The natural number a non-empty string of decimal digits denotes. *)
Definition read_decimal (s : string) : option N :=
  N.of_uint <$> NilZero.uint_of_string s.

Definition digit_value (c : ascii) : Z := Z.of_nat (nat_of_ascii c) - 48.

Definition read_digits (s : string) : Z :=
  fold_left (λ acc c, 10 * acc + digit_value c) (list_ascii_of_string s) 0.

(** What a string of the shape [-ddd.ddddd] denotes: its sign and its
    magnitude in units of [10^-5]. *)
Definition read_fixed5 (s : string) : option (bool * Z) :=
  let '(neg, body) :=
    match s with
    | String a s' => if Ascii.eqb a minus then (true, s') else (false, s)
    | EmptyString => (false, s)
    end in
  match strings.Split dot body with
  | [ip; fp] =>
      if (String.length fp =? 5)%nat && all_digits fp
      then (λ n, (neg, Z.of_N n * 100000 + read_digits fp)) <$> read_decimal ip
      else None
  | _ => None
  end.

(** ** Start-up ([func init]) *)

Section Init.
(** The size of Go's [int] on the platform, in bits. *)
Variable intSize : Z.

(** [strconv.Atoi]: an optional sign and at least one decimal digit; the
    value has to fit an [int]. The error, or the number. *)
Definition Atoi (s : string) : string + Z :=
  let '(neg, digits) :=
    match s with
    | String a s' =>
        if Ascii.eqb a minus then (true, s')
        else if Ascii.eqb a plus then (false, s')
        else (false, s)
    | EmptyString => (false, s)
    end in
  match NilZero.uint_of_string digits with
  | None => inl "invalid syntax"
  | Some d =>
      let n := Z.of_N (N.of_uint d) in
      if neg then
        if n <=? 2 ^ (intSize - 1) then inr (- n) else inl "value out of range"
      else
        if n <? 2 ^ (intSize - 1) then inr n else inl "value out of range"
  end.

(** The part of [init] that sets [maxPartitions]: [os.Getenv] yields the
    empty string for a variable that is not set, and [log.Fatal] ends the
    process. *)
Definition init_maxPartitions (env : gmap string string) : outcome Z :=
  let tmp := default "" (env !! "MAX_LIBRATO_PROCS") in
  match Atoi tmp with
  | inl err => Failed err
  | inr n => Returned n
  end.

End Init.

(** * Properties *)

(** ** The batcher *)

Section BatcherFacts.
Context `{RT : GoRuntime}.

Local Open Scope nat_scope.

Lemma purge_values ks (m m' : gmap string slice) out :
  purge ks m = (m', out) →
  (∀ k s, m !! k = Some s → 0 < len s) →
  (map_to_list m).*2 ≡ₚ (sent <$> out) ++ (map_to_list m').*2
  ∧ Forall (λ f, cause f = TimeTrigger ∧ ∃ k, m !! k = Some (sent f)) out
  ∧ ∀ k s, m' !! k = Some s → m !! k = Some s ∧ k ∉ ks.
Proof.
  revert m m' out. induction ks as [|k ks IH]; intros m m' out; simpl.
  - intros [= <- <-] _. split; [done|]. split; [constructor|].
    intros k s Hk. split; [done|]. apply not_elem_of_nil.
  - destruct (m !! k) as [v|] eqn:Hk.
    + destruct (purge ks (delete k m)) as [m1 out1] eqn:Hp.
      intros [= <- <-] Hpos.
      destruct (IH _ _ _ Hp) as (Hperm & Hall & Hrest).
      { intros k' s' Hk'. apply lookup_delete_Some in Hk' as [_ Hk']. eauto. }
      assert (0 < len v) as Hv by eauto.
      apply Nat.ltb_lt in Hv. rewrite Hv. simpl.
      split; [|split].
      * rewrite <- Hperm. rewrite <- (map_to_list_delete m k v Hk). done.
      * constructor; [eauto|].
        eapply Forall_impl; [exact Hall|]. simpl.
        intros f [Hc [k' Hk']]. split; [done|]. exists k'.
        by apply lookup_delete_Some in Hk' as [_ Hk'].
      * intros k' s' Hk'. destruct (Hrest _ _ Hk') as [Hd Hnin].
        apply lookup_delete_Some in Hd as [Hne Hd]. split; [done|].
        intros [->|?]%elem_of_cons; done.
    + intros Hp Hpos. destruct (IH _ _ _ Hp Hpos) as (Hperm & Hall & Hrest).
      split; [done|]. split; [done|].
      intros k' s' Hk'. destruct (Hrest _ _ Hk') as [Hm Hnin].
      split; [done|]. intros [->|?]%elem_of_cons; [congruence|done].
Qed.

Lemma held_delete (m : gmap string slice) k s :
  m !! k = Some s → held m ≡ₚ elems s ++ held (delete k m).
Proof.
  intros Hk. unfold held. by rewrite <- (map_to_list_delete m k s Hk).
Qed.

Lemma held_insert (m : gmap string slice) k s :
  m !! k = None → held (<[k:=s]> m) ≡ₚ elems s ++ held m.
Proof.
  intros Hk. unfold held. by rewrite (map_to_list_insert m k s Hk).
Qed.

Lemma held_replace (m : gmap string slice) k s s' :
  m !! k = Some s → held (<[k:=s']> m) ≡ₚ elems s' ++ held (delete k m).
Proof.
  intros Hk. rewrite <- (insert_delete_eq m k s').
  apply held_insert, lookup_delete_eq.
Qed.

Lemma batch_inv_delete (m : gmap string slice) k :
  batch_inv m → batch_inv (delete k m).
Proof.
  intros Hinv k' s' Hk'. apply lookup_delete_Some in Hk' as [_ Hk']. eauto.
Qed.

Lemma batch_inv_insert (m : gmap string slice) k s :
  batch_inv m → capacity s = 50 → 1 ≤ len s ≤ 49 →
  Forall (λ lm, Token lm = k) (elems s) → batch_inv (<[k:=s]> m).
Proof.
  intros Hinv Hc Hl Ht k' s' Hk'.
  apply lookup_insert_Some in Hk' as [[<- <-]|[_ Hk']]; eauto.
Qed.

(** Under the invariant [append] never reallocates. *)
Lemma append_in_place s lm :
  capacity s = 50 → len s ≤ 49 →
  append s lm = mkSlice (elems s ++ [lm]) 50.
Proof.
  intros Hc Hl. unfold append.
  destruct (Nat.ltb_spec (len s) (capacity s)); [by rewrite Hc|lia].
Qed.

Lemma tick_clears (m : gmap string slice) m' out :
  batch_inv m → batch_step m Tick = (m', out) →
  m' = ∅
  ∧ sent <$> out ≡ₚ (map_to_list m).*2
  ∧ Forall (λ f, cause f = TimeTrigger ∧ ∃ k, m !! k = Some (sent f)) out.
Proof.
  intros Hinv Hstep. simpl in Hstep.
  destruct (purge_values _ _ _ _ Hstep) as (Hperm & Hall & Hrest).
  { intros k s Hk. destruct (Hinv _ _ Hk) as (_ & ? & _). lia. }
  assert (m' = ∅) as ->.
  { apply map_empty. intros k. destruct (m' !! k) as [s|] eqn:Hk; [|done].
    destruct (Hrest _ _ Hk) as [Hm Hnin]. exfalso. apply Hnin.
    rewrite range_keys_perm. apply list_elem_of_fmap.
    exists (k, s). split; [done|]. by apply elem_of_map_to_list. }
  split; [done|]. split; [|done].
  rewrite Hperm. rewrite map_to_list_empty. simpl. by rewrite app_nil_r.
Qed.

Lemma batch_step_inv (m : gmap string slice) e m' out :
  batch_inv m → batch_step m e = (m', out) →
  batch_inv m' ∧ Forall well_flushed out
  ∧ flushed out ++ held m' ≡ₚ held m ++ received [e].
Proof.
  intros Hinv Hstep. destruct e as [|lm].
  - destruct (tick_clears _ _ _ Hinv Hstep) as (-> & Hperm & Hall).
    split; [intros k s; by rewrite lookup_empty|]. split.
    + eapply Forall_impl; [exact Hall|]. simpl.
      intros f [Hc [k Hk]]. destruct (Hinv _ _ Hk) as (Hcap & Hlen & Htok).
      split; [done|]. split; [lia|]. split; [|by exists k].
      rewrite Hc. split; [done|lia].
    + unfold flushed, held. rewrite Hperm. simpl.
      rewrite map_to_list_empty. simpl. by rewrite !app_nil_r.
  - simpl in Hstep. unfold store_record, index in Hstep.
    destruct (m !! Token lm) as [s|] eqn:Hk; simpl in Hstep.
    + destruct (Hinv _ _ Hk) as (Hcap & Hlen & Htok).
      rewrite (append_in_place s lm) in Hstep by (done || lia).
      rewrite lookup_insert_eq in Hstep. simpl in Hstep.
      unfold len in Hstep at 1. simpl in Hstep. rewrite length_app in Hstep.
      simpl in Hstep.
      assert (Forall (λ x, Token x = Token lm) (elems s ++ [lm])) as Htok'.
      { apply Forall_app. split; [done|]. by constructor. }
      destruct (Nat.eqb_spec (length (elems s) + 1) 50) as [Hfull|Hroom].
      * injection Hstep as <- <-. rewrite delete_insert_eq.
        split; [by apply batch_inv_delete|]. split.
        -- constructor; [|constructor]. unfold well_flushed, len. simpl.
           rewrite length_app. simpl.
           split; [done|]. split; [lia|]. split; [done|by exists (Token lm)].
        -- unfold flushed. simpl. rewrite !app_nil_r.
           rewrite (held_delete m _ _ Hk). rewrite <- !(assoc_L (++)).
           apply Permutation_app_head. apply Permutation_app_comm.
      * injection Hstep as <- <-.
        split; [|split; [constructor|]].
        -- apply batch_inv_insert; [done|done| |done].
           unfold len in *. simpl. rewrite length_app. simpl. lia.
        -- unfold flushed. simpl. rewrite (held_replace m _ _ _ Hk). simpl.
           rewrite (held_delete m _ _ Hk). rewrite <- !(assoc_L (++)).
           apply Permutation_app_head. apply Permutation_app_comm.
    + rewrite lookup_insert_eq in Hstep. simpl in Hstep.
      injection Hstep as <- <-.
      split; [|split; [constructor|]].
      * apply batch_inv_insert; [done|done|unfold len; simpl; lia|].
        simpl. by constructor.
      * unfold flushed. simpl. rewrite (held_insert m _ _ Hk). simpl.
        apply Permutation_cons_append.
Qed.

Lemma batch_loop_inv evs (m : gmap string slice) m' out :
  batch_inv m → batch_loop m evs = (m', out) →
  batch_inv m' ∧ Forall well_flushed out
  ∧ flushed out ++ held m' ≡ₚ held m ++ received evs.
Proof.
  revert m m' out. induction evs as [|e evs IH]; intros m m' out Hinv; simpl.
  - intros [= <- <-]. split; [done|]. split; [constructor|].
    unfold flushed. simpl. by rewrite app_nil_r.
  - destruct (batch_step m e) as [m1 out1] eqn:Hs.
    destruct (batch_loop m1 evs) as [m2 out2] eqn:Hl.
    intros [= <- <-].
    destruct (batch_step_inv _ _ _ _ Hinv Hs) as (Hinv1 & Hall1 & Hperm1).
    destruct (IH _ _ _ Hinv1 Hl) as (Hinv2 & Hall2 & Hperm2).
    split; [done|]. split; [apply Forall_app; by split|].
    unfold flushed in *. rewrite !fmap_app, concat_app.
    rewrite <- (assoc_L (++)). rewrite Hperm2.
    rewrite !(assoc_L (++)). rewrite Hperm1.
    rewrite <- (assoc_L (++)). by destruct e.
Qed.

Lemma batch_inv_empty : batch_inv ∅.
Proof. intros k s. by rewrite lookup_empty. Qed.

Lemma batch_reaches evs :
  batch_inv (batch evs).1 ∧ Forall well_flushed (batch evs).2
  ∧ flushed (batch evs).2 ++ held (batch evs).1 ≡ₚ received evs.
Proof.
  unfold batch. destruct (batch_loop ∅ evs) as [m out] eqn:Hl.
  destruct (batch_loop_inv _ _ _ _ batch_inv_empty Hl) as (Hinv & Hall & Hperm).
  split; [done|]. split; [done|]. simpl. rewrite Hperm.
  unfold held. by rewrite map_to_list_empty.
Qed.

(** The slice found under a record's token right after the record was
    stored. *)
Lemma store_record_slot (m : gmap string slice) lm :
  batch_inv m →
  store_record m lm !! Token lm = Some (index (store_record m lm) (Token lm))
  ∧ capacity (index (store_record m lm) (Token lm)) = 50
  ∧ 1 ≤ len (index (store_record m lm) (Token lm)) ≤ 50.
Proof.
  intros Hinv. unfold store_record, index.
  destruct (m !! Token lm) as [s|] eqn:Hk; rewrite lookup_insert_eq; simpl.
  - destruct (Hinv _ _ Hk) as (Hcap & Hlen & _).
    rewrite append_in_place by (done || lia).
    unfold len in *. simpl. rewrite length_app. simpl. split; [done|]. lia.
  - unfold len. simpl. split; [done|]. lia.
Qed.

Lemma store_record_appends (m : gmap string slice) lm :
  elems (index (store_record m lm) (Token lm))
  = elems (index m (Token lm)) ++ [lm].
Proof.
  unfold store_record, index.
  destruct (m !! Token lm) as [s|] eqn:Hk; rewrite lookup_insert_eq; simpl.
  - unfold append. by destruct (len s <? capacity s).
  - done.
Qed.

Lemma store_record_others (m : gmap string slice) lm k :
  k ≠ Token lm → store_record m lm !! k = m !! k.
Proof.
  intros Hne. unfold store_record.
  destruct (m !! Token lm); by rewrite lookup_insert_ne.
Qed.

End BatcherFacts.

(** C1. Every batch pushed to the outbox holds between 1 and 50 records,
    and it is pushed once: the capacity trigger sends exactly the batches
    of 50 records, at the moment the 50th record is appended, and removes
    them from the map; the time trigger sends every batch the map holds
    and empties the map. Hence every record received is in exactly one
    pushed batch or still in the map. *)
Theorem batch_flushes_each_batch_once `{RT : GoRuntime} (evs : list event) :
  let m := (batch evs).1 in
  let out := (batch evs).2 in
  Forall (λ f, (1 ≤ len (sent f) ≤ 50)%nat
               ∧ (cause f = CapTrigger ↔ len (sent f) = 50%nat)) out
  ∧ flushed out ++ held m ≡ₚ received evs
  ∧ (∀ lm,
       let m1 := store_record m lm in
       let b := index m1 (Token lm) in
       if decide (len b = 50%nat)
       then batch_step m (Recv lm) = (delete (Token lm) m1, [Flush CapTrigger b])
            ∧ delete (Token lm) m1 !! Token lm = None
       else batch_step m (Recv lm) = (m1, []))
  ∧ ∃ out_t,
      batch_step m Tick = (∅, out_t)
      ∧ sent <$> out_t ≡ₚ (map_to_list m).*2
      ∧ Forall (λ f, cause f = TimeTrigger) out_t.
Proof.
  intros m out. subst m out.
  destruct (batch_reaches evs) as (Hinv & Hall & Hperm).
  split; [|split; [done|split]].
  - eapply Forall_impl; [exact Hall|]. intros f (_ & Hlen & Hcause & _). done.
  - intros lm m1 b. subst m1 b.
    destruct (store_record_slot _ lm Hinv) as (Hslot & Hcap & Hlen).
    unfold batch_step. rewrite Hcap.
    case_decide as Hfull.
    + rewrite Hfull. simpl. split; [done|]. apply lookup_delete_eq.
    + by destruct (Nat.eqb_spec (len (index (store_record (batch evs).1 lm) (Token lm))) 50).
  - destruct (batch_step (batch evs).1 Tick) as [m' out_t] eqn:Hs.
    destruct (tick_clears _ _ _ Hinv Hs) as (-> & Hp & Hall_t).
    exists out_t. split; [done|]. split; [done|].
    eapply Forall_impl; [exact Hall_t|]. by intros f [? _].
Qed.

(** C2. Every batch pushed to the outbox is homogeneous: its records
    carry one token. The map is keyed by token: a batch stored under a key
    holds records of that token only, and storing a record appends it to
    the batch under the record's own token and touches no other batch. *)
Theorem batch_homogeneous `{RT : GoRuntime} (evs : list event) :
  let m := (batch evs).1 in
  let out := (batch evs).2 in
  Forall (λ f, ∃ tok, Forall (λ lm, Token lm = tok) (elems (sent f))) out
  ∧ (∀ k s, m !! k = Some s → Forall (λ lm, Token lm = k) (elems s))
  ∧ ∀ lm,
      elems (index (store_record m lm) (Token lm)) = elems (index m (Token lm)) ++ [lm]
      ∧ ∀ k, k ≠ Token lm → store_record m lm !! k = m !! k.
Proof.
  intros m out. subst m out.
  destruct (batch_reaches evs) as (Hinv & Hall & _).
  split; [|split].
  - eapply Forall_impl; [exact Hall|]. by intros f (_ & _ & _ & Hhom).
  - intros k s Hk. by destruct (Hinv _ _ Hk) as (_ & _ & Htok).
  - intros lm. split; [apply store_record_appends|].
    intros k Hne. by apply store_record_others.
Qed.

(** C10. Between two events every batch in the map has capacity 50 and
    between 1 and 49 records; so, right after a record is stored, the
    condition [len == cap] of the capacity trigger is the condition
    [len == 50]; and every batch pushed to the outbox is non-empty. *)
Theorem batch_map_invariant `{RT : GoRuntime} (evs : list event) :
  let m := (batch evs).1 in
  let out := (batch evs).2 in
  (∀ k s, m !! k = Some s → capacity s = 50%nat ∧ (1 ≤ len s ≤ 49)%nat)
  ∧ (∀ lm,
       let b := index (store_record m lm) (Token lm) in
       capacity b = 50%nat ∧ (len b = capacity b ↔ len b = 50%nat))
  ∧ Forall (λ f, elems (sent f) ≠ []) out.
Proof.
  intros m out. subst m out.
  destruct (batch_reaches evs) as (Hinv & Hall & _).
  split; [|split].
  - intros k s Hk. destruct (Hinv _ _ Hk) as (? & ? & _). done.
  - intros lm b. subst b.
    destruct (store_record_slot _ lm Hinv) as (_ & Hcap & _).
    split; [done|]. by rewrite Hcap.
  - eapply Forall_impl; [exact Hall|]. intros f (_ & Hlen & _) Hnil.
    unfold len in Hlen. rewrite Hnil in Hlen. simpl in Hlen. lia.
Qed.

(** The scenario of the spec: of 51 records of one account received within
    a second, the first 50 leave at once by the capacity trigger and the
    last one at the next tick. *)
Example batch_fifty_one :
  (λ f, (cause f, len (sent f), Token <$> head (elems (sent f))))
    <$> (batch fifty_one_and_a_tick).2
  ≡ₚ [(CapTrigger, 50%nat, Some "abc"); (TimeTrigger, 1%nat, Some "abc");
      (TimeTrigger, 1%nat, Some "xyz")]
  ∧ (batch fifty_one_and_a_tick).1 = ∅.
Proof.
  split; [|by vm_compute].
  vm_compute. apply Permutation_cons; [done|]. apply perm_swap || reflexivity.
Qed.

(** ** Conversion *)

Lemma wrap64_id z : int64 z → wrap64 z = z.
Proof.
  unfold int64, wrap64. intros Hz.
  rewrite Z.mod_small by lia. lia.
Qed.

Section ConvertFacts.
Context `{ST : store.Store}.

Lemma convert_loaded b b' :
  store.Get b = inr b' → store.Vals b' ≠ [] →
  (convert b).2 =
    [ stat b' ".last" (ff (store.Last b'));
      stat b' ".min" (ff (store.Min b'));
      stat b' ".max" (ff (store.Max b'));
      stat b' ".mean" (ff (store.Mean b'));
      stat b' ".median" (ff (store.Median b'));
      stat b' ".perc95" (ff (store.P95 b'));
      stat b' ".perc99" (ff (store.P99 b'));
      stat b' ".count" (fi (store.Count b'));
      stat b' ".sum" (ff (store.Sum b')) ].
Proof.
  intros HGet Hvals. unfold convert. rewrite HGet.
  destruct (store.Vals b') as [|v vs] eqn:Hv; [done|]. reflexivity.
Qed.

Lemma convert_sends_loaded b lm :
  lm ∈ (convert b).2 →
  ∃ b', store.Get b = inr b' ∧ store.Vals b' ≠ [].
Proof.
  unfold convert. destruct (store.Get b) as [err|b'] eqn:HGet; simpl.
  - by intros ?%elem_of_nil.
  - destruct (store.Vals b') as [|v vs] eqn:Hv; simpl.
    + by intros ?%elem_of_nil.
    + intros _. exists b'. split; [done|]. by rewrite Hv.
Qed.

End ConvertFacts.

(** C3. A bucket that loads and has at least one sample makes [convert]
    send exactly nine records, named after the bucket with the suffixes
    .last, .min, .max, .mean, .median, .perc95, .perc99, .count, .sum, in
    that order; a bucket that fails to load, or loads without samples,
    makes it send none. *)
Theorem convert_emits_nine `{ST : store.Store} (b : store.Bucket) :
  (∀ b', store.Get b = inr b' → store.Vals b' ≠ [] →
     length (convert b).2 = 9%nat
     ∧ Name <$> (convert b).2 = (λ suffix, store.Name b' +:+ suffix) <$> suffixes)
  ∧ (∀ err, store.Get b = inl err → (convert b).2 = [])
  ∧ (∀ b', store.Get b = inr b' → store.Vals b' = [] → (convert b).2 = []).
Proof.
  split; [|split].
  - intros b' HGet Hvals. by rewrite (convert_loaded b b' HGet Hvals).
  - intros err HGet. unfold convert. by rewrite HGet.
  - intros b' HGet Hvals. unfold convert. by rewrite HGet, Hvals.
Qed.

Lemma convert_emits_nine_witness :
  Name <$> (@convert store4 (store.placeholder 4)).2
    = ["web.latency.last"; "web.latency.min"; "web.latency.max";
       "web.latency.mean"; "web.latency.median"; "web.latency.perc95";
       "web.latency.perc99"; "web.latency.count"; "web.latency.sum"]
  ∧ (@convert store4 (store.placeholder 6)).2 = []
  ∧ (@convert store4 (store.placeholder 7)).2 = [].
Proof.
  pose proof (@convert_emits_nine store4 (store.placeholder 4)) as (H4 & _ & _).
  pose proof (@convert_emits_nine store4 (store.placeholder 6)) as (_ & _ & H6).
  pose proof (@convert_emits_nine store4 (store.placeholder 7)) as (_ & H7 & _).
  split; [|split].
  - destruct (H4 bucket4) as [_ Hn]; [reflexivity|discriminate|]. exact Hn.
  - apply (H6 bucket6); reflexivity.
  - apply (H7 "bucket not found"). reflexivity.
Defined.

(** C4. Every record [convert] sends carries as [measure_time] the Unix
    seconds of the start of the bucket's window plus 59, the sum being that
    of [int64]; it is the exact sum whenever that fits an [int64]. *)
Theorem convert_measure_time `{ST : store.Store} (b b' : store.Bucket) (lm : LM) :
  store.Get b = inr b' → lm ∈ (convert b).2 →
  Time lm = int64_add (time.Unix_of (store.Time b')) 59
  ∧ (int64 (time.Unix_of (store.Time b') + 59) →
     Time lm = time.Unix_of (store.Time b') + 59).
Proof.
  intros HGet Hin.
  destruct (convert_sends_loaded b lm Hin) as (b'' & HGet' & Hvals).
  assert (b'' = b') as -> by congruence.
  rewrite (convert_loaded b b' HGet Hvals) in Hin.
  assert (Time lm = ft (store.Time b')) as Hft.
  { repeat (apply elem_of_cons in Hin as [->|Hin]; [reflexivity|]).
    by apply elem_of_nil in Hin. }
  split; [exact Hft|].
  intros Hfit. rewrite Hft. unfold ft, int64_add. by apply wrap64_id.
Qed.

Lemma convert_measure_time_witness :
  Time (stat bucket4 ".mean" "3.00000") = 36059.
Proof.
  refine (proj2 (@convert_measure_time store4 (store.placeholder 4) bucket4
                   (stat bucket4 ".mean" "3.00000") _ _) _).
  - reflexivity.
  - vm_compute. do 3 apply list_elem_of_further. apply list_elem_of_here.
  - unfold int64. simpl. lia.
Defined.

(** ** Number formatting *)

Lemma is_digit_digit_char d : is_digit (digit_char d) = true.
Proof.
  unfold digit_char.
  assert (0 ≤ d mod 10 < 10) as Hd by (apply Z.mod_pos_bound; lia).
  assert (Z.to_nat (d mod 10) < 10)%nat as Hk by lia.
  generalize dependent (Z.to_nat (d mod 10)). intros k Hk.
  do 10 (destruct k as [|k]; [reflexivity|]). lia.
Qed.

Lemma all_digits_frac5 q : all_digits (frac5 q) = true.
Proof.
  unfold frac5, all_digits. cbn [list_ascii_of_string forallb].
  rewrite !is_digit_digit_char. reflexivity.
Qed.

Lemma all_digits_uint d : all_digits (NilEmpty.string_of_uint d) = true.
Proof. induction d; simpl; auto. Qed.

Lemma all_digits_decimal n : all_digits (decimal n) = true.
Proof.
  unfold decimal, NilZero.string_of_uint.
  destruct (N.to_uint n) eqn:E; try reflexivity; rewrite <- E at 1;
    rewrite E; apply all_digits_uint.
Qed.

Lemma decimal_nonempty n : decimal n ≠ "".
Proof.
  unfold decimal, NilZero.string_of_uint. by destruct (N.to_uint n).
Qed.

Lemma integer_string_fi x : integer_string (fi x).
Proof.
  exists (if x <? 0 then "-" else ""), (decimal (Z.abs_N x)).
  split; [done|]. split; [destruct (x <? 0); auto|].
  split; [apply decimal_nonempty|apply all_digits_decimal].
Qed.

Lemma decimal5_string_fixed5 neg q : decimal5_string (fixed5 neg q).
Proof.
  exists (if neg then "-" else ""), (decimal (Z.to_N (q / 100000))), (frac5 q).
  split; [done|]. split; [destruct neg; auto|].
  split; [apply decimal_nonempty|]. split; [apply all_digits_decimal|].
  split; [done|apply all_digits_frac5].
Qed.

(** [ff] writes every finite value with exactly five digits after the
    point. *)
Lemma decimal5_string_ff x : is_finite x = true → decimal5_string (ff x).
Proof.
  destruct x as [s|s| |s m e]; try discriminate; intros _;
    apply decimal5_string_fixed5.
Qed.

Lemma not_decimal5_NaN : ¬ decimal5_string "NaN".
Proof.
  intros (sign & ip & fp & Heq & Hsign & Hip & Hdig & _).
  destruct Hsign as [-> | ->]; simpl in Heq; [|discriminate].
  destruct ip as [|a1 [|a2 [|a3 [|a4 ip]]]]; simpl in *; try discriminate;
    try congruence.
Qed.

(** ** Delivery *)

Section PostFacts.
Context `{ST : store.Store}.
Variable escape : string → string.
Variable http : Z → attempt.
Variables j user pass : string.

Lemma attempts_all_fail n i :
  0 ≤ i → i + Z.of_nat n = 6 →
  (∀ k, i ≤ k ≤ 5 → failing (http k)) →
  requests (attempts http j user pass n i) = n
  ∧ ¬ (Measure "librato-http-post" ∈ attempts http j user pass n i)
  ∧ (n ≠ 0%nat →
     last (attempts http j user pass n i) = Some (last_failure j (http 5))).
Proof.
  revert i. induction n as [|n IH]; intros i Hi Hn Hfail.
  - simpl. split; [done|]. split; [apply not_elem_of_nil|done].
  - assert ((i <=? maxRetry) = true) as Hle by (apply Z.leb_le; unfold maxRetry; lia).
    assert (failing (http i)) as Hfi by (apply Hfail; lia).
    destruct (IH (i + 1)) as (Hreq & Hmeas & Hlast); [lia|lia|intros; apply Hfail; lia|].
    cbn [attempts]. rewrite Hle.
    destruct (http i) as [err|err unread|status] eqn:Hhi; simpl in Hfi; [done| |].
    + split; [|split].
      * unfold requests in *. cbn [List.filter is_request length]. by rewrite Hreq.
      * rewrite !not_elem_of_cons. done.
      * intros _. destruct (decide (n = 0%nat)) as [->|Hn0].
        -- assert (i = 5) as -> by lia. by rewrite Hhi.
        -- by rewrite !last_cons, (Hlast Hn0).
    + unfold ok_status in Hfi. rewrite Hfi.
      destruct (decide (n = 0%nat)) as [->|Hn0].
      * assert (i = 5) as -> by lia. rewrite Hhi. cbn.
        split; [done|]. split; [|done].
        rewrite !not_elem_of_cons. split; [done|]. split; [done|].
        split; [done|apply not_elem_of_nil].
      * assert ((i =? maxRetry) = false) as ->
          by (apply Z.eqb_neq; unfold maxRetry; lia).
        rewrite app_nil_l. split; [|split].
        -- unfold requests in *. cbn [List.filter is_request length]. by rewrite Hreq.
        -- rewrite !not_elem_of_cons. done.
        -- intros _. by rewrite !last_cons, (Hlast Hn0).
Qed.

Lemma attempts_first_ok n i k status :
  0 ≤ i ≤ k → k < i + Z.of_nat n → k ≤ 5 →
  (∀ l, i ≤ l < k → failing (http l)) →
  http k = Response status → ok_status status = true →
  ∃ pre,
    attempts http j user pass n i
      = pre ++ [HttpDo j user pass; BodyClose; Measure "librato-http-post"]
    ∧ requests pre = Z.to_nat (k - i).
Proof.
  revert i. induction n as [|n IH]; intros i Hik Hn Hk Hfail Hhk Hok; [lia|].
  assert ((i <=? maxRetry) = true) as Hle by (apply Z.leb_le; unfold maxRetry; lia).
  cbn [attempts]. rewrite Hle.
  destruct (decide (i = k)) as [->|Hne].
  - rewrite Hhk. unfold ok_status in Hok. rewrite Hok.
    exists []. split; [done|]. by rewrite Z.sub_diag.
  - assert (failing (http i)) as Hfi by (apply Hfail; lia).
    destruct (IH (i + 1)) as (pre & Hrun & Hreq);
      [lia|lia|done|intros; apply Hfail; lia|done|done|].
    assert ((i =? maxRetry) = false) as Hmid
      by (apply Z.eqb_neq; unfold maxRetry; lia).
    destruct (http i) as [err|err unread|st] eqn:Hhi; simpl in Hfi; [done| |].
    + exists (HttpDo j user pass :: Printf (log_do_error err unread) :: pre).
      split; [by rewrite Hrun|].
      unfold requests in *. cbn [List.filter is_request length]. rewrite Hreq. lia.
    + unfold ok_status in Hfi. rewrite Hfi, Hmid, app_nil_l.
      exists (HttpDo j user pass :: BodyClose :: pre).
      split; [by rewrite Hrun|].
      unfold requests in *. cbn [List.filter is_request length]. rewrite Hreq. lia.
Qed.

End PostFacts.

Lemma render_nonempty escape gauges :
  (String.length (render escape (marshal_LP gauges)) =? 0)%nat = false.
Proof. reflexivity. Qed.

Lemma post_one_nonempty `{ST : store.Store} escape http lm metrics :
  post_one escape http (lm :: metrics) =
    TokenGet (Token lm)
    :: Printf (log_post_metric (Name lm) (Source lm) (S (length metrics)))
    :: attempts http (render escape (marshal_LP (lm :: metrics)))
         (store.token_Get (Token lm)).1 (store.token_Get (Token lm)).2 6 0.
Proof.
  unfold post_one. cbn [length Nat.ltb Nat.leb].
  destruct (store.token_Get (Token lm)) as [user pass].
  unfold json_Marshal. by rewrite render_nonempty.
Qed.

(** C5 (as amended). A non-empty batch all of whose attempts fail, by a
    transport error or a response that is not 2xx, is sent in exactly six
    requests and never reported as delivered; the last thing the worker
    does with it is to log the failure of the sixth attempt: the line
    [librato-status-error] when that attempt got a response, the attempt's
    own [do-error] line, with the error and what was left unread of the
    body, when it was a transport error. The first 2xx response ends the
    retries: it is the last request made. *)
Theorem post_retry_bound `{ST : store.Store} escape http (metrics : list LM) :
  metrics ≠ [] →
  let tr := post_one escape http metrics in
  ((∀ i, 0 ≤ i ≤ 5 → failing (http i)) →
     requests tr = 6%nat
     ∧ ¬ (Measure "librato-http-post" ∈ tr)
     ∧ (∀ status, http 5 = Response status →
          last tr = Some (Printf (log_librato_status_error status)))
     ∧ (∀ err unread, http 5 = DoError err unread →
          last tr = Some (Printf (log_do_error err unread))))
  ∧ (∀ k status,
       0 ≤ k ≤ 5 → (∀ i, 0 ≤ i < k → failing (http i)) →
       http k = Response status → ok_status status = true →
       requests tr = Z.to_nat (k + 1)
       ∧ last tr = Some (Measure "librato-http-post")).
Proof.
  intros Hne tr. subst tr.
  destruct metrics as [|lm metrics]; [done|].
  rewrite post_one_nonempty.
  set (body := render escape (marshal_LP (lm :: metrics))).
  set (user := (store.token_Get (Token lm)).1).
  set (pass := (store.token_Get (Token lm)).2).
  split.
  - intros Hfail.
    destruct (attempts_all_fail http body user pass 6 0) as (Hreq & Hmeas & Hlast);
      [lia|lia|done|].
    split; [unfold requests in *; cbn [List.filter is_request length]; by rewrite Hreq|].
    split; [rewrite !not_elem_of_cons; done|].
    specialize (Hlast ltac:(lia)).
    split.
    + intros status H5. rewrite !last_cons, Hlast, H5. done.
    + intros err unread H5. rewrite !last_cons, Hlast, H5. done.
  - intros k status Hk Hfail Hhk Hok.
    destruct (attempts_first_ok http body user pass 6 0 k status)
      as (pre & Hrun & Hreq); [lia|lia|lia|done|done|done|].
    rewrite Hrun. split.
    + unfold requests in *. cbn [List.filter is_request length].
      rewrite List.filter_app, length_app, Hreq. simpl. lia.
    + rewrite !last_cons.
      replace (pre ++ [HttpDo body user pass; BodyClose; Measure "librato-http-post"])
        with ((pre ++ [HttpDo body user pass; BodyClose]) ++ [Measure "librato-http-post"])
        by (by rewrite <- (assoc_L (++))).
      by rewrite last_snoc.
Qed.

(** C9. A batch without records is rejected at once: the worker logs
    [empty-metrics-error] and does nothing else with it; it resolves no
    credentials and sends no request. *)
Theorem post_rejects_empty `{ST : store.Store} escape http :
  post_one escape http [] = [Printf log_empty_metrics_error]
  ∧ List.filter is_credentials (post_one escape http []) = []
  ∧ requests (post_one escape http []) = 0%nat.
Proof. by split. Qed.

Lemma post_retry_bound_witness :
  requests (@post_one store4 id always_503 [last4]) = 6%nat
  ∧ last (@post_one store4 id always_503 [last4])
    = Some (Printf (log_librato_status_error 503))
  ∧ requests (@post_one store4 id third_time_lucky [last4]) = 3%nat.
Proof.
  pose proof (@post_retry_bound store4 id always_503 [last4]) as H503.
  pose proof (@post_retry_bound store4 id third_time_lucky [last4]) as H200.
  simpl in H503, H200.
  destruct H503 as [H503 _]; [discriminate|].
  destruct H200 as [_ H200]; [discriminate|].
  destruct H503 as (Hreq & _ & Hlast & _); [intros i _; reflexivity|].
  split; [exact Hreq|]. split; [exact (Hlast 503 eq_refl)|].
  destruct (H200 2 200) as [Hreq2 _]; [lia| |reflexivity|reflexivity|exact Hreq2].
  intros i Hi. unfold third_time_lucky.
  destruct (Z.ltb_spec i 2); [reflexivity|lia].
Defined.

(** C5, the claim as stated fails: when all six attempts end in a
    transport error the worker logs six [do-error] lines, one per attempt,
    and no line that reports the batch as given up. *)
Lemma post_transport_errors_log_no_terminal_failure :
  (∀ i, 0 ≤ i ≤ 5 → failing (always_timeout i))
  ∧ requests (@post_one store4 id always_timeout [last4]) = 6%nat
  ∧ List.filter is_status_error (@post_one store4 id always_timeout [last4]) = []
  ∧ @post_one store4 id always_timeout [last4]
    = TokenGet "abc"
      :: Printf (log_post_metric "web.latency.last" "web.1" 1)
      :: concat (replicate 6
           [HttpDo (render id (marshal_LP [last4])) "user@abc" "secret";
            Printf (log_do_error "timeout" "")]).
Proof.
  split; [intros i _; exact I|]. split; [reflexivity|]. split; reflexivity.
Qed.

(** ** The wire format *)

Lemma attempts_body http j user pass n i body user' pass' :
  HttpDo body user' pass' ∈ attempts http j user pass n i → body = j.
Proof.
  revert i. induction n as [|n IH]; intros i; cbn [attempts].
  - by intros ?%elem_of_nil.
  - destruct (i <=? maxRetry); [|by intros ?%elem_of_nil].
    destruct (http i) as [err|err unread|status].
    + intros [?|?]%elem_of_cons; [done|by eapply IH].
    + intros [?|[?|?]%elem_of_cons]%elem_of_cons; [congruence|done|by eapply IH].
    + destruct (Z.quot status 100 =? 2).
      * intros [?|[?|[?|?%elem_of_nil]%elem_of_cons]%elem_of_cons]%elem_of_cons;
          [congruence|done|done|done].
      * intros [?|[?|Hin]%elem_of_cons]%elem_of_cons; [congruence|done|].
        apply elem_of_app in Hin as [Hin|Hin]; [|by eapply IH].
        destruct (i =? maxRetry); [|by apply elem_of_nil in Hin].
        by apply elem_of_cons in Hin as [?|?%elem_of_nil].
Qed.

Lemma omitempty_spec key v :
  omitempty key v = if decide (v = "") then [] else [(key, JStr v)].
Proof.
  unfold omitempty. destruct (String.eqb_spec v ""); by case_decide.
Qed.

(** C6 (as amended). The body of every request is the encoding of the
    batch: a JSON object with the single field [gauges], an array with one
    object per record, in order. Each object has the fields [name] (a
    string), [measure_time] (an integer) and [value] (a string), then
    [source] when the record has a source, then [Token] when the record has
    a token, and no other field. The names and values of the nine records
    made by [convert] are, in order: [.last], [.min], [.max], [.mean],
    [.median], [.perc95] and [.perc99] with that statistic written by
    [ff], [.count] with the count written by [fi], and [.sum] with the sum
    written by [ff]. What [fi] writes is a base-10 integer; what [ff]
    writes for a finite number is a decimal with exactly five digits after
    the point. *)
Theorem delivery_wire_format `{ST : store.Store} escape http (metrics : list LM) :
  (∀ body user pass,
     HttpDo body user pass ∈ post_one escape http metrics →
     body = render escape (marshal_LP metrics))
  ∧ marshal_LP metrics = JObj [("gauges", JArr (marshal_LM <$> metrics))]
  ∧ (∀ lm,
       marshal_LM lm =
         JObj ([("name", JStr (Name lm));
                ("measure_time", JNum (Time lm));
                ("value", JStr (Val lm))]
               ++ (if decide (Source lm = "") then [] else [("source", JStr (Source lm))])
               ++ (if decide (Token lm = "") then [] else [("Token", JStr (Token lm))])))
  ∧ (∀ b b',
       store.Get b = inr b' → store.Vals b' ≠ [] →
       (λ lm, (Name lm, Val lm)) <$> (convert b).2
       = [ (store.Name b' +:+ ".last", ff (store.Last b'));
           (store.Name b' +:+ ".min", ff (store.Min b'));
           (store.Name b' +:+ ".max", ff (store.Max b'));
           (store.Name b' +:+ ".mean", ff (store.Mean b'));
           (store.Name b' +:+ ".median", ff (store.Median b'));
           (store.Name b' +:+ ".perc95", ff (store.P95 b'));
           (store.Name b' +:+ ".perc99", ff (store.P99 b'));
           (store.Name b' +:+ ".count", fi (store.Count b'));
           (store.Name b' +:+ ".sum", ff (store.Sum b')) ])
  ∧ (∀ n, integer_string (fi n))
  ∧ (∀ x, is_finite x = true → decimal5_string (ff x)).
Proof.
  split; [|split; [done|split; [|split; [|split]]]].
  - intros body user pass Hin. destruct metrics as [|lm metrics].
    + simpl in Hin. by apply elem_of_cons in Hin as [?|?%elem_of_nil].
    + rewrite post_one_nonempty in Hin.
      apply elem_of_cons in Hin as [?|Hin]; [done|].
      apply elem_of_cons in Hin as [?|Hin]; [done|].
      by eapply attempts_body.
  - intros lm. unfold marshal_LM. by rewrite !omitempty_spec.
  - intros b b' HGet Hvals. by rewrite (convert_loaded b b' HGet Hvals).
  - apply integer_string_fi.
  - apply decimal5_string_ff.
Qed.

(** C6, the claim as stated fails: the object of a record with a token
    has a fifth field, [Token]; and a statistic that is not a number is
    written as [NaN], not as a decimal. *)
Lemma wire_format_carries_token :
  keys (marshal_LM last4) = ["name"; "measure_time"; "value"; "source"; "Token"]
  ∧ marshal_LM last4 =
      JObj [("name", JStr "web.latency.last"); ("measure_time", JNum 36059);
            ("value", JStr "5.00000"); ("source", JStr "web.1");
            ("Token", JStr "abc")]
  ∧ ¬ decimal5_string (ff S754_nan).
Proof.
  split; [reflexivity|]. split; [reflexivity|]. exact not_decimal5_NaN.
Qed.

(** ** The partition lock *)

Section LockFacts.
Variable maxPartitions : Z.
Variable pg : nat → Z → lock_reply.

Lemma scan_spec pass n p tr r :
  scan maxPartitions pg pass n p = (tr, r) →
  match r with
  | Some q =>
      p ≤ q < p + Z.of_nat n
      ∧ granted (pg pass q) = true
      ∧ (∀ q', p ≤ q' < q → granted (pg pass q') = false)
      ∧ tr = (LockQuery <$> seqZ p (q - p + 1))
             ++ [Printf (log_acquired_lock q maxPartitions)]
  | None =>
      (∀ q', p ≤ q' < p + Z.of_nat n → granted (pg pass q') = false)
      ∧ tr = LockQuery <$> seqZ p (Z.of_nat n)
  end.
Proof.
  revert p tr r. induction n as [|n IH]; intros p tr r; cbn [scan].
  - intros [= <- <-]. split; [lia|done].
  - destruct (scan maxPartitions pg pass n (p + 1)) as [tr' r'] eqn:Hs.
    specialize (IH _ _ _ Hs).
    assert (granted (pg pass p) = false →
            (LockQuery p :: tr', r') = (tr, r) →
            match r with
            | Some q =>
                p ≤ q < p + Z.of_nat (S n)
                ∧ granted (pg pass q) = true
                ∧ (∀ q', p ≤ q' < q → granted (pg pass q') = false)
                ∧ tr = (LockQuery <$> seqZ p (q - p + 1))
                       ++ [Printf (log_acquired_lock q maxPartitions)]
            | None =>
                (∀ q', p ≤ q' < p + Z.of_nat (S n) → granted (pg pass q') = false)
                ∧ tr = LockQuery <$> seqZ p (Z.of_nat (S n))
            end) as Hnext.
    { intros Hp [= <- <-]. destruct r' as [q|].
      - destruct IH as (Hq & Hg & Hbefore & ->).
        split; [lia|]. split; [done|]. split.
        + intros q' Hq'. destruct (decide (q' = p)) as [->|]; [done|].
          apply Hbefore. lia.
        + rewrite (seqZ_cons p (q - p + 1)) by lia.
          replace (Z.succ p) with (p + 1) by lia.
          by replace (Z.pred (q - p + 1)) with (q - (p + 1) + 1) by lia.
      - destruct IH as (Hnone & ->). split.
        + intros q' Hq'. destruct (decide (q' = p)) as [->|]; [done|].
          apply Hnone. lia.
        + rewrite (seqZ_cons p (Z.of_nat (S n))) by lia.
          replace (Z.succ p) with (p + 1) by lia.
          by replace (Z.pred (Z.of_nat (S n))) with (Z.of_nat n) by lia. }
    destruct (pg pass p) as [err|rows] eqn:Hp; [by apply Hnext|].
    destruct (scan_rows rows) eqn:Hrows; [|by apply Hnext].
    intros [= <- <-]. split; [lia|]. split; [by rewrite Hp|].
    split; [intros; lia|].
    by rewrite Z.sub_diag.
Qed.

Lemma seqZ_to_nat n : seqZ 0 (Z.of_nat (Z.to_nat n)) = seqZ 0 n.
Proof. unfold seqZ. by rewrite Nat2Z.id. Qed.

Lemma lockPartition_from_spec fuel pass tr p err :
  lockPartition_from maxPartitions pg fuel pass = (tr, Some (p, err)) →
  err = None ∧ 0 ≤ p < maxPartitions
  ∧ ∃ k : nat,
      granted (pg (pass + k)%nat p) = true
      ∧ (∀ q, 0 ≤ q < p → granted (pg (pass + k)%nat q) = false)
      ∧ (∀ (k' : nat) q, (k' < k)%nat → 0 ≤ q < maxPartitions →
           granted (pg (pass + k')%nat q) = false)
      ∧ tr = concat (replicate k (idle_scan maxPartitions))
             ++ (LockQuery <$> seqZ 0 (p + 1))
             ++ [Printf (log_acquired_lock p maxPartitions)].
Proof.
  revert pass tr. induction fuel as [|fuel IH]; intros pass tr; cbn [lockPartition_from].
  - intros [=].
  - destruct (scan maxPartitions pg pass (Z.to_nat maxPartitions) 0) as [tr1 r1] eqn:Hs.
    pose proof (scan_spec _ _ _ _ _ Hs) as Hspec.
    destruct r1 as [q|].
    + intros [= <- <- <-]. destruct Hspec as (Hq & Hg & Hbefore & ->).
      split; [done|]. split; [lia|]. exists 0%nat.
      rewrite Nat.add_0_r. split; [done|]. split; [done|].
      split; [intros; lia|]. simpl. by rewrite Z.sub_0_r.
    + destruct (lockPartition_from maxPartitions pg fuel (S pass)) as [tr2 r2] eqn:Hl.
      intros [= <- ->]. destruct Hspec as (Hnone & ->).
      destruct (IH _ _ Hl) as (-> & Hp & k & Hg & Hbefore & Hearlier & ->).
      split; [done|]. split; [done|]. exists (S k).
      replace (pass + S k)%nat with (S pass + k)%nat by lia.
      split; [done|]. split; [done|]. split.
      * intros k' q Hk' Hq. destruct k' as [|k'].
        -- rewrite Nat.add_0_r. apply Hnone. lia.
        -- replace (pass + S k')%nat with (S pass + k')%nat by lia.
           apply Hearlier; [lia|done].
      * cbn [replicate concat]. unfold idle_scan.
        rewrite seqZ_to_nat. rewrite <- !(assoc_L (++)). reflexivity.
Qed.

Lemma scan_finds pass n p q :
  p ≤ q < p + Z.of_nat n → granted (pg pass q) = true →
  ∃ tr q', scan maxPartitions pg pass n p = (tr, Some q').
Proof.
  intros Hq Hg.
  destruct (scan maxPartitions pg pass n p) as [tr [q'|]] eqn:Hs; [by eauto|].
  destruct (scan_spec _ _ _ _ _ Hs) as [Hnone _].
  rewrite (Hnone q Hq) in Hg. done.
Qed.

Lemma lockPartition_from_progress fuel pass (k : nat) q :
  (k < fuel)%nat → 0 ≤ q < maxPartitions →
  granted (pg (pass + k)%nat q) = true →
  ∃ tr p, lockPartition_from maxPartitions pg fuel pass = (tr, Some (p, None)).
Proof.
  revert pass k. induction fuel as [|fuel IH]; intros pass k Hk Hq Hg; [lia|].
  cbn [lockPartition_from].
  destruct (scan maxPartitions pg pass (Z.to_nat maxPartitions) 0) as [tr1 [p|]] eqn:Hs;
    [by eauto|].
  destruct k as [|k].
  - rewrite Nat.add_0_r in Hg.
    destruct (scan_finds pass (Z.to_nat maxPartitions) 0 q) as (tr & q' & Hs');
      [lia|done|congruence].
  - destruct (IH (S pass) k) as (tr & p & ->); [lia|done| |by eauto].
    by replace (S pass + k)%nat with (pass + S k)%nat by lia.
Qed.

End LockFacts.

(** C8. Whenever [lockPartition] returns, the error is nil and the
    partition is the first index, in a scan of 0 .. maxPartitions-1, whose
    lock was granted (so it lies in that range); before that scan every
    scan went through all the indices, was granted none, and was followed
    by a sleep of 10 seconds. A query that fails counts as a lock not
    granted. The function does return, with a nil error, once a scan meets
    an index whose lock is granted. *)
Theorem lockPartition_first_granted (maxPartitions : Z) (pg : nat → Z → lock_reply) :
  (∀ fuel tr p err,
     lockPartition maxPartitions pg fuel = (tr, Some (p, err)) →
     err = None ∧ 0 ≤ p < maxPartitions
     ∧ ∃ pass : nat,
         granted (pg pass p) = true
         ∧ (∀ q, 0 ≤ q < p → granted (pg pass q) = false)
         ∧ (∀ (pass' : nat) q, (pass' < pass)%nat → 0 ≤ q < maxPartitions →
              granted (pg pass' q) = false)
         ∧ tr = concat (replicate pass (idle_scan maxPartitions))
                ++ (LockQuery <$> seqZ 0 (p + 1))
                ++ [Printf (log_acquired_lock p maxPartitions)])
  ∧ (∀ pass q err, pg pass q = LockError err → granted (pg pass q) = false)
  ∧ (∀ (pass fuel : nat) q,
       0 ≤ q < maxPartitions → granted (pg pass q) = true → (pass < fuel)%nat →
       ∃ tr p, lockPartition maxPartitions pg fuel = (tr, Some (p, None))).
Proof.
  split; [|split].
  - intros fuel tr p err Hl. by apply (lockPartition_from_spec _ _ _ 0%nat) in Hl.
  - intros pass q err ->. done.
  - intros pass fuel q Hq Hg Hfuel.
    by apply (lockPartition_from_progress _ _ fuel 0%nat pass q).
Qed.

(** ** Discovery *)


(** From the epoch on, and while the nanoseconds fit an [int64],
    [RoundTime] to the minute is the floor. *)
Lemma RoundTime_minute_floor t :
  0 ≤ time.sec t → 0 ≤ time.nsec t < 1000000000 → time.instant t < 2 ^ 63 →
  utils.RoundTime t time.Minute = floor_minute t.
Proof.
  destruct t as [s n]. unfold time.instant, utils.RoundTime, time.UnixNano,
    floor_minute, time.Minute, time.Second. cbn [time.sec time.nsec].
  intros Hs Hn Hfit.
  change (60 * 1000000000) with 60000000000.
  rewrite (wrap64_id (s * 1000000000 + n)) by (unfold int64; lia).
  rewrite Z.quot_div_nonneg by lia.
  assert ((s * 1000000000 + n) / 60000000000 = s / 60) as ->.
  { pose proof (Z.div_mod s 60 ltac:(lia)) as Hdm.
    pose proof (Z.mod_pos_bound s 60 ltac:(lia)) as Hr.
    symmetry. apply (Z.div_unique_pos _ _ _ ((s mod 60) * 1000000000 + n)); lia. }
  assert (0 ≤ s / 60) as Hk by (apply Z.div_pos; lia).
  assert (s / 60 * 60000000000 ≤ s * 1000000000) as Hle.
  { pose proof (Z.mul_div_le s 60 ltac:(lia)). lia. }
  rewrite (wrap64_id (s / 60 * 60000000000)) by (unfold int64; lia).
  unfold time.Unix.
  destruct (Z.ltb_spec (s / 60 * 60000000000) 0) as [?|_]; [lia|].
  destruct (Z.leb_spec 1000000000 (s / 60 * 60000000000)) as [Hbig|Hsmall];
    cbn [orb].
  - assert (Z.quot (s / 60 * 60000000000) 1000000000 = 60 * (s / 60)) as ->.
    { rewrite Z.quot_div_nonneg by lia.
      symmetry. apply (Z.div_unique_pos _ _ _ 0); lia. }
    rewrite Z.add_0_l. rewrite (wrap64_id (60 * (s / 60))) by (unfold int64; lia).
    destruct (Z.ltb_spec (s / 60 * 60000000000 - 60 * (s / 60) * 1000000000) 0);
      [lia|]. f_equal; lia.
  - f_equal; lia.
Qed.




Lemma lockPartition_first_granted_witness :
  lockPartition 3 second_scan_grants_1 5
  = ([LockQuery 0; LockQuery 1; LockQuery 2; Sleep 10000000000;
      LockQuery 0; LockQuery 1; Printf (log_acquired_lock 1 3)],
     Some (1, None))
  ∧ ∃ tr p, lockPartition 3 second_scan_grants_1 2 = (tr, Some (p, None)).
Proof.
  split; [reflexivity|].
  apply (proj2 (proj2 (lockPartition_first_granted 3 second_scan_grants_1)) 1%nat 2%nat 1);
    [lia|reflexivity|lia].
Defined.

(** ** The batcher keeps the order of arrival *)

Lemma of_token_all k (l : list LM) :
  Forall (λ lm, Token lm = k) l → of_token k l = l.
Proof.
  unfold of_token. induction 1 as [|lm l Hlm _ IH]; [done|].
  rewrite filter_cons_True by done. by rewrite IH.
Qed.

Lemma of_token_none k k' (l : list LM) :
  k ≠ k' → Forall (λ lm, Token lm = k') l → of_token k l = [].
Proof.
  intros Hne. unfold of_token. induction 1 as [|lm l Hlm _ IH]; [done|].
  rewrite filter_cons_False by congruence. done.
Qed.

Lemma of_token_app k (l1 l2 : list LM) :
  of_token k (l1 ++ l2) = of_token k l1 ++ of_token k l2.
Proof. apply filter_app. Qed.

Lemma flushed_cons f out : flushed (f :: out) = elems (sent f) ++ flushed out.
Proof. reflexivity. Qed.

Lemma flushed_app out1 out2 : flushed (out1 ++ out2) = flushed out1 ++ flushed out2.
Proof. unfold flushed. by rewrite !fmap_app, concat_app. Qed.

Section BatcherOrder.
Context `{RT : GoRuntime}.

Lemma index_tokens (m : gmap string slice) k :
  batch_inv m → Forall (λ lm, Token lm = k) (elems (index m k)).
Proof.
  intros Hinv. unfold index. destruct (m !! k) as [s|] eqn:Hk; simpl.
  - by destruct (Hinv _ _ Hk) as (_ & _ & ?).
  - constructor.
Qed.

Lemma index_delete_eq (m : gmap string slice) k : index (delete k m) k = nil_slice.
Proof. unfold index. by rewrite lookup_delete_eq. Qed.

Lemma index_delete_ne (m : gmap string slice) k k' :
  k ≠ k' → index (delete k m) k' = index m k'.
Proof. intros Hne. unfold index. by rewrite lookup_delete_ne. Qed.

Lemma purge_order k ks (m m' : gmap string slice) out :
  batch_inv m → purge ks m = (m', out) →
  of_token k (flushed out) ++ elems (index m' k) = elems (index m k).
Proof.
  revert m m' out. induction ks as [|k0 ks IH]; intros m m' out Hinv; simpl.
  - by intros [= <- <-].
  - destruct (m !! k0) as [v|] eqn:Hk0; [|by apply IH].
    destruct (purge ks (delete k0 m)) as [m1 out1] eqn:Hp. intros [= <- <-].
    specialize (IH _ _ _ (batch_inv_delete m k0 Hinv) Hp).
    destruct (Hinv _ _ Hk0) as (_ & Hlen & Htok).
    assert ((0 <? len v)%nat = true) as -> by (apply Nat.ltb_lt; lia).
    cbn [app]. rewrite flushed_cons, of_token_app.
    rewrite <- (assoc_L (++)), IH. unfold index. cbn [sent].
    destruct (decide (k0 = k)) as [->|Hne].
    + rewrite lookup_delete_eq, Hk0. simpl. rewrite app_nil_r.
      by apply of_token_all.
    + rewrite lookup_delete_ne by done.
      by rewrite (of_token_none k k0 (elems v)) by (done || congruence).
Qed.

Lemma batch_step_order k (m : gmap string slice) e m' out :
  batch_inv m → batch_step m e = (m', out) →
  of_token k (flushed out) ++ elems (index m' k)
  = elems (index m k) ++ of_token k (received [e]).
Proof.
  intros Hinv Hstep. destruct e as [|lm].
  - simpl in Hstep. rewrite (purge_order k _ _ _ _ Hinv Hstep).
    by rewrite app_nil_r.
  - destruct (store_record_slot m lm Hinv) as (Hslot & Hcap & Hlen).
    pose proof (store_record_appends m lm) as Happ.
    pose proof (index_tokens m (Token lm) Hinv) as Htok.
    assert (∀ k', k' ≠ Token lm → index (store_record m lm) k' = index m k') as Hother.
    { intros k' Hk'. unfold index. by rewrite store_record_others. }
    unfold batch_step in Hstep. rewrite Hcap in Hstep.
    change (received [Recv lm]) with [lm].
    destruct (Nat.eqb_spec (len (index (store_record m lm) (Token lm))) 50) as [Hfull|Hroom];
      injection Hstep as <- <-.
    + rewrite flushed_cons. cbn [sent flushed fmap list_fmap concat].
      rewrite app_nil_r, Happ.
      destruct (decide (k = Token lm)) as [->|Hne].
      * rewrite of_token_all
          by (apply Forall_app; split; [done|by constructor]).
        rewrite index_delete_eq. cbn [elems nil_slice]. rewrite app_nil_r.
        by rewrite (of_token_all _ [lm]) by (by constructor).
      * rewrite (of_token_none k (Token lm) (_ ++ _) Hne)
          by (apply Forall_app; split; [done|by constructor]).
        rewrite (of_token_none k (Token lm) [lm] Hne) by (by constructor).
        rewrite index_delete_ne by done. rewrite Hother by done.
        by rewrite app_nil_r.
    + change (flushed []) with (@nil LM). change (of_token k []) with (@nil LM).
      cbn [app].
      destruct (decide (k = Token lm)) as [->|Hne].
      * rewrite Happ. by rewrite (of_token_all _ [lm]) by (by constructor).
      * rewrite Hother by done.
        rewrite (of_token_none k (Token lm) [lm] Hne) by (by constructor).
        by rewrite app_nil_r.
Qed.

Lemma batch_loop_order k evs (m : gmap string slice) m' out :
  batch_inv m → batch_loop m evs = (m', out) →
  of_token k (flushed out) ++ elems (index m' k)
  = elems (index m k) ++ of_token k (received evs).
Proof.
  revert m m' out. induction evs as [|e evs IH]; intros m m' out Hinv;
    cbn [batch_loop].
  - intros [= <- <-]. change (received []) with (@nil LM).
    change (of_token k []) with (@nil LM). by rewrite app_nil_r.
  - destruct (batch_step m e) as [m1 out1] eqn:Hs.
    destruct (batch_loop m1 evs) as [m2 out2] eqn:Hl. intros [= <- <-].
    destruct (batch_step_inv _ _ _ _ Hinv Hs) as (Hinv1 & _ & _).
    pose proof (batch_step_order k _ _ _ _ Hinv Hs) as H1.
    pose proof (IH _ _ _ Hinv1 Hl) as H2.
    assert (of_token k (received (e :: evs))
            = of_token k (received [e]) ++ of_token k (received evs)) as ->.
    { rewrite <- of_token_app. by destruct e. }
    rewrite flushed_app, of_token_app.
    rewrite <- (assoc_L (++)), H2. rewrite !(assoc_L (++)). by rewrite H1.
Qed.

End BatcherOrder.

(** X1. Per account the batcher is first in, first out: the records of an
    account in the batches pushed so far, in the order of the pushes,
    followed by the records of the batch the map still holds for the
    account, are the records of that account in the order they arrived. *)
Theorem batch_keeps_arrival_order `{RT : GoRuntime} (evs : list event) (k : string) :
  of_token k (flushed (batch evs).2) ++ elems (index (batch evs).1 k)
  = of_token k (received evs).
Proof.
  unfold batch. destruct (batch_loop ∅ evs) as [m out] eqn:Hl. simpl.
  rewrite (batch_loop_order k _ _ _ _ batch_inv_empty Hl).
  unfold index. by rewrite lookup_empty.
Qed.

(** ** Bounds on what a delivery worker does *)

Lemma attempts_bounded http j user pass n i :
  (requests (attempts http j user pass n i) ≤ n)%nat
  ∧ (deliveries (attempts http j user pass n i) ≤ 1)%nat
  ∧ (deliveries (attempts http j user pass n i) = 1%nat →
     last (attempts http j user pass n i) = Some (Measure "librato-http-post"))
  ∧ List.filter is_credentials (attempts http j user pass n i) = []
  ∧ ∀ body user' pass',
      HttpDo body user' pass' ∈ attempts http j user pass n i →
      user' = user ∧ pass' = pass.
Proof.
  revert i. induction n as [|n IH]; intros i; cbn [attempts].
  - unfold requests, deliveries. cbn.
    split; [lia|]. split; [lia|]. split; [done|]. split; [done|].
    by intros ??? ?%elem_of_nil.
  - destruct (IH (i + 1)) as (Hreq & Hdel & Hlast & Hcred & Hauth).
    unfold requests, deliveries in *.
    destruct (i <=? maxRetry);
      [|cbn; split; [lia|]; split; [lia|]; split; [done|]; split; [done|];
        by intros ??? ?%elem_of_nil].
    destruct (http i) as [err|err unread|status].
    + cbn [List.filter is_request is_delivered is_credentials length].
      split; [lia|]. split; [done|]. split.
      * intros Hone. rewrite last_cons, (Hlast Hone). done.
      * split; [done|]. intros body u p [?|?]%elem_of_cons; [done|by eauto].
    + cbn [List.filter is_request is_delivered is_credentials length].
      split; [lia|]. split; [done|]. split.
      * intros Hone. rewrite !last_cons, (Hlast Hone). done.
      * split; [done|].
        intros body u p [?|[?|?]%elem_of_cons]%elem_of_cons;
          [by simplify_eq|done|by eauto].
    + destruct (Z.quot status 100 =? 2).
      * cbn. split; [lia|]. split; [done|]. split; [done|]. split; [done|].
        intros body u p
          [?|[?|[?|?%elem_of_nil]%elem_of_cons]%elem_of_cons]%elem_of_cons;
          [by simplify_eq|done|done|done].
      * destruct (i =? maxRetry);
          cbn [app List.filter is_request is_delivered is_credentials length];
          (split; [lia|]); (split; [done|]); (split; [|split; [done|]]).
        -- intros Hone. rewrite !last_cons, (Hlast Hone). done.
        -- intros body u p
             [?|[?|[?|?]%elem_of_cons]%elem_of_cons]%elem_of_cons;
             [by simplify_eq|done|done|by eauto].
        -- intros Hone. rewrite !last_cons, (Hlast Hone). done.
        -- intros body u p [?|[?|?]%elem_of_cons]%elem_of_cons;
             [by simplify_eq|done|by eauto].
Qed.

(** X2. Whatever the endpoint does, a worker sends at most six requests
    for a batch and reports at most one delivery, and reporting the
    delivery is then the last thing it does for the batch. *)
Theorem post_one_bounded `{ST : store.Store} escape http (metrics : list LM) :
  (requests (post_one escape http metrics) ≤ 6)%nat
  ∧ (deliveries (post_one escape http metrics) ≤ 1)%nat
  ∧ (deliveries (post_one escape http metrics) = 1%nat →
     last (post_one escape http metrics) = Some (Measure "librato-http-post")).
Proof.
  destruct metrics as [|lm metrics].
  - unfold requests, deliveries. simpl. split; [lia|]. split; [lia|done].
  - rewrite post_one_nonempty.
    destruct (attempts_bounded http (render escape (marshal_LP (lm :: metrics)))
                (store.token_Get (Token lm)).1 (store.token_Get (Token lm)).2 6 0)
      as (Hreq & Hdel & Hlast & _).
    unfold requests, deliveries in *.
    cbn [List.filter is_request is_delivered length].
    split; [done|]. split; [done|].
    intros Hone. rewrite !last_cons, (Hlast Hone). done.
Qed.

(** X3. For a non-empty batch the worker resolves credentials once, for
    the token of the first record, before anything else; and every request
    it sends carries those credentials and the encoding of the whole
    batch. *)
Theorem post_one_credentials `{ST : store.Store} escape http (lm : LM) (rest : list LM) :
  head (post_one escape http (lm :: rest)) = Some (TokenGet (Token lm))
  ∧ List.filter is_credentials (post_one escape http (lm :: rest))
    = [TokenGet (Token lm)]
  ∧ ∀ body user pass,
      HttpDo body user pass ∈ post_one escape http (lm :: rest) →
      (user, pass) = store.token_Get (Token lm)
      ∧ body = render escape (marshal_LP (lm :: rest)).
Proof.
  rewrite post_one_nonempty.
  destruct (attempts_bounded http (render escape (marshal_LP (lm :: rest)))
              (store.token_Get (Token lm)).1 (store.token_Get (Token lm)).2 6 0)
    as (_ & _ & _ & Hcred & Hauth).
  split; [done|]. split.
  - cbn [List.filter is_credentials]. by rewrite Hcred.
  - intros body user pass [?|[?|Hin]%elem_of_cons]%elem_of_cons; [done|done|].
    split.
    + destruct (Hauth _ _ _ Hin) as [-> ->]. by destruct (store.token_Get (Token lm)).
    + by eapply attempts_body.
Qed.

Lemma attempts_never_reject http j user pass n i :
  ¬ (Printf log_empty_metrics_error ∈ attempts http j user pass n i).
Proof.
  revert i. induction n as [|n IH]; intros i; cbn [attempts].
  - by intros ?%elem_of_nil.
  - destruct (i <=? maxRetry); [|by intros ?%elem_of_nil].
    destruct (http i) as [err|err unread|status].
    + intros [?|?]%elem_of_cons; [done|by eapply IH].
    + intros [?|[?|?]%elem_of_cons]%elem_of_cons; [done|done|by eapply IH].
    + destruct (Z.quot status 100 =? 2).
      * intros [?|[?|[?|?%elem_of_nil]%elem_of_cons]%elem_of_cons]%elem_of_cons; done.
      * destruct (i =? maxRetry); cbn [app].
        -- intros [?|[?|[?|?]%elem_of_cons]%elem_of_cons]%elem_of_cons;
             [done|done|done|by eapply IH].
        -- intros [?|[?|?]%elem_of_cons]%elem_of_cons; [done|done|by eapply IH].
Qed.

(** X4. The batcher and the delivery worker fit: a batch pushed by the
    batcher is never rejected as empty, and the credentials the worker
    resolves for it, from its first record, are those of the account of
    every record in it. *)
Theorem batch_then_post `{RT : GoRuntime} `{ST : store.Store} escape http
    (evs : list event) :
  Forall (λ f,
            ¬ (Printf log_empty_metrics_error ∈ post_one escape http (elems (sent f)))
            ∧ ∃ tok,
                head (post_one escape http (elems (sent f))) = Some (TokenGet tok)
                ∧ Forall (λ lm, Token lm = tok) (elems (sent f)))
    (batch evs).2.
Proof.
  destruct (batch_reaches evs) as (_ & Hall & _).
  eapply Forall_impl; [exact Hall|]. intros f (_ & Hlen & _ & [tok Htok]).
  unfold len in Hlen. destruct (elems (sent f)) as [|lm rest] eqn:E; [simpl in Hlen; lia|].
  rewrite post_one_nonempty. split.
  - intros [?|[?|Hin]%elem_of_cons]%elem_of_cons; [done|done|].
    by apply attempts_never_reject in Hin.
  - exists (Token lm). split; [done|].
    apply Forall_cons in Htok as [<- Hrest]. by constructor.
Qed.

(** ** The records of one bucket *)

Lemma append_inj_l (p s1 s2 : string) : p +:+ s1 = p +:+ s2 → s1 = s2.
Proof. induction p as [|a p IH]; simpl; [done|]. intros [= ?]. auto. Qed.

Lemma suffixes_NoDup : NoDup suffixes.
Proof. apply (bool_decide_unpack _). by vm_compute. Qed.

(** X5. The records [convert] makes of a bucket all carry the token and
    the source of the bucket and one and the same time, and their names
    differ from one another. *)
Theorem convert_records_of_bucket `{ST : store.Store} (b b' : store.Bucket) :
  store.Get b = inr b' →
  Forall (λ lm, Token lm = store.Token b'
                ∧ Source lm = store.Source b'
                ∧ Time lm = ft (store.Time b')) (convert b).2
  ∧ NoDup (Name <$> (convert b).2).
Proof.
  intros HGet. destruct (store.Vals b') as [|v vs] eqn:Hv.
  - unfold convert. rewrite HGet, Hv. simpl. split; constructor.
  - rewrite (convert_loaded b b' HGet) by (by rewrite Hv). split.
    + repeat constructor.
    + change (NoDup ((λ suffix, store.Name b' +:+ suffix) <$> suffixes)).
      assert (Inj (=) (=) (λ suffix, store.Name b' +:+ suffix)) as Hinj
        by (intros s1 s2; apply append_inj_l).
      apply (NoDup_fmap_2 _). apply suffixes_NoDup.
Qed.

Lemma convert_records_of_bucket_witness :
  Forall (λ lm, Token lm = "abc" ∧ Source lm = "web.1" ∧ Time lm = 36059)
    (@convert store4 (store.placeholder 4)).2
  ∧ NoDup (Name <$> (@convert store4 (store.placeholder 4)).2).
Proof.
  apply (@convert_records_of_bucket store4 (store.placeholder 4) bucket4).
  reflexivity.
Defined.

(** ** [RoundTime] in general *)

(** [time.Unix(0, n)] denotes the instant [n] ns after the epoch, with its
    nanoseconds brought back into a second. *)
Lemma Unix0_instant n :
  int64 n →
  time.instant (time.Unix 0 n) = n
  ∧ 0 ≤ time.nsec (time.Unix 0 n) < 1000000000.
Proof.
  unfold int64, time.Unix, time.instant. intros Hn.
  destruct ((n <? 0) || (1000000000 <=? n)) eqn:Hout; cbn [time.sec time.nsec].
  - rewrite Z.add_0_l.
    assert (int64 (Z.quot n 1000000000)) as Hq
      by (unfold int64; Z.quot_rem_to_equations; lia).
    rewrite (wrap64_id _ Hq).
    destruct (Z.ltb_spec (n - Z.quot n 1000000000 * 1000000000) 0);
      cbn [time.sec time.nsec].
    + rewrite wrap64_id by (unfold int64 in *; Z.quot_rem_to_equations; lia).
      Z.quot_rem_to_equations. lia.
    + Z.quot_rem_to_equations. lia.
  - apply orb_false_iff in Hout as [?%Z.ltb_ge ?%Z.leb_gt]. lia.
Qed.

Lemma quot_mul_bounds x d :
  0 < d →
  (0 ≤ x → 0 ≤ Z.quot x d * d ≤ x)
  ∧ (x ≤ 0 → x ≤ Z.quot x d * d ≤ 0)
  ∧ Z.abs (x - Z.quot x d * d) < d.
Proof.
  intros Hd. pose proof (Z.quot_rem' x d) as Hqr.
  split; [|split].
  - intros Hx. pose proof (Z.mul_quot_le x d Hx ltac:(lia)). lia.
  - intros Hx. pose proof (Z.mul_quot_ge x d Hx ltac:(lia)). lia.
  - pose proof (Z.rem_bound_abs x d ltac:(lia)). lia.
Qed.

Lemma RoundTime_instant t d :
  0 < d → int64 (time.instant t) →
  utils.RoundTime t d = time.Unix 0 (Z.quot (time.instant t) d * d)
  ∧ int64 (Z.quot (time.instant t) d * d).
Proof.
  intros Hd Hx. unfold utils.RoundTime, time.UnixNano.
  fold (time.instant t). rewrite (wrap64_id _ Hx).
  assert (int64 (Z.quot (time.instant t) d * d)) as Hy.
  { unfold int64 in *. generalize dependent (time.instant t). intros x Hx.
    destruct (quot_mul_bounds x d Hd) as (Hpos & Hneg & _). lia. }
  by rewrite (wrap64_id _ Hy).
Qed.

(** X6. For a positive duration [d], and an instant whose nanoseconds fit
    an [int64], [RoundTime] yields the multiple of [d] next to the instant
    in the direction of the epoch: the instant itself cut down from the
    epoch on, rounded up before the epoch; it is less than [d] away. *)
Theorem RoundTime_truncates (t : time.Time) (d : Z) :
  0 < d → int64 (time.instant t) →
  let x := time.instant t in
  let r := time.instant (utils.RoundTime t d) in
  r = d * Z.quot x d
  ∧ Z.abs (x - r) < d
  ∧ (0 ≤ x → 0 ≤ r ≤ x)
  ∧ (x ≤ 0 → x ≤ r ≤ 0)
  ∧ 0 ≤ time.nsec (utils.RoundTime t d) < 1000000000.
Proof.
  intros Hd Hx x r. subst x r.
  destruct (RoundTime_instant t d Hd Hx) as [-> Hy].
  destruct (Unix0_instant _ Hy) as [-> Hns].
  destruct (quot_mul_bounds (time.instant t) d Hd) as (Hpos & Hneg & Habs).
  split; [lia|]. split; [done|]. split; [done|]. split; done.
Qed.

Lemma RoundTime_truncates_witness :
  time.instant (utils.RoundTime tick5 (5 * time.Second)) = 36005000000000
  ∧ time.instant (utils.RoundTime tick1969 time.Minute) = 0.
Proof.
  split.
  - rewrite (proj1 (RoundTime_truncates tick5 (5 * time.Second) ltac:(reflexivity)
                      ltac:(unfold int64, time.instant; simpl; lia))).
    reflexivity.
  - rewrite (proj1 (RoundTime_truncates tick1969 time.Minute ltac:(reflexivity)
                      ltac:(unfold int64, time.instant; simpl; lia))).
    reflexivity.
Defined.

(** X7. Rounding a rounded time again changes nothing. *)
Theorem RoundTime_idempotent (t : time.Time) (d : Z) :
  0 < d → int64 (time.instant t) →
  utils.RoundTime (utils.RoundTime t d) d = utils.RoundTime t d.
Proof.
  intros Hd Hx.
  destruct (RoundTime_instant t d Hd Hx) as [Ht Hy].
  destruct (Unix0_instant _ Hy) as [Hinst _].
  rewrite Ht.
  destruct (RoundTime_instant (time.Unix 0 (Z.quot (time.instant t) d * d)) d Hd)
    as [-> _]; [by rewrite Hinst|].
  rewrite Hinst. by rewrite Z.quot_mul by lia.
Qed.

Lemma RoundTime_idempotent_witness :
  utils.RoundTime (utils.RoundTime tick5 time.Minute) time.Minute
  = time.mkTime 36000 0.
Proof.
  rewrite (RoundTime_idempotent tick5 time.Minute ltac:(reflexivity)
             ltac:(unfold int64, time.instant; simpl; lia)).
  reflexivity.
Defined.

(** ** Discovery, again *)

Lemma scanBuckets_perm (O O' : RowOrder) partitionId maxPartitions db min max :
  @scanBuckets O partitionId maxPartitions db min max
  ≡ₚ @scanBuckets O' partitionId maxPartitions db min max.
Proof.
  unfold scanBuckets, pg_Query. destruct db as [rows|]; [|done].
  destruct (maxPartitions =? 0); [done|].
  apply fmap_Permutation. by rewrite !order_rows_perm.
Qed.

(** X8. Discovery keeps no record of what it has sent: two ticks of the
    same minute (from the epoch on) look at the same window, and on the
    same table send the same buckets once more, each as many times as
    before; the order of the buckets of one second is the database's, and
    may differ from one query to the next. *)
Theorem fetch_repeats_within_minute (O O' : RowOrder) (Local : time.Location)
    (partitionId maxPartitions : Z) (db : option (list Row)) (t t' : time.Time) :
  0 ≤ time.sec t → 0 ≤ time.nsec t < 1000000000 → time.instant t < 2 ^ 63 →
  0 ≤ time.sec t' → 0 ≤ time.nsec t' < 1000000000 → time.instant t' < 2 ^ 63 →
  time.sec t / 60 = time.sec t' / 60 →
  window t = window t'
  ∧ (@fetch O Local partitionId maxPartitions db t).2
    ≡ₚ (@fetch O' Local partitionId maxPartitions db t').2.
Proof.
  intros Hs Hn Hfit Hs' Hn' Hfit' Hmin.
  assert (window t = window t') as Hw.
  { unfold window.
    rewrite (RoundTime_minute_floor t Hs Hn Hfit),
      (RoundTime_minute_floor t' Hs' Hn' Hfit').
    unfold floor_minute. by rewrite Hmin. }
  split; [done|]. unfold fetch. rewrite Hw. destruct (window t') as [min max].
  cbn [snd]. apply fmap_Permutation, scanBuckets_perm.
Qed.

Lemma fetch_repeats_within_minute_witness :
  window tick5 = window tick10
  ∧ (fetch time.UTC 0 2 (Some rows4) tick5).2
    ≡ₚ (fetch time.UTC 0 2 (Some rows4) tick10).2.
Proof.
  apply (fetch_repeats_within_minute listed_rows listed_rows time.UTC 0 2
           (Some rows4) tick5 tick10);
    [simpl; lia|simpl; lia|unfold time.instant; simpl; lia
    |simpl; lia|simpl; lia|unfold time.instant; simpl; lia|reflexivity].
Defined.

Lemma elem_of_scanBuckets `{O : RowOrder} partitionId maxPartitions rows min max id :
  id ∈ scanBuckets partitionId maxPartitions (Some rows) min max
  ↔ maxPartitions ≠ 0
    ∧ ∃ r, r ∈ rows ∧ row_id r = id ∧ selected partitionId maxPartitions min max r.
Proof.
  unfold scanBuckets, pg_Query.
  destruct (Z.eqb_spec maxPartitions 0) as [Hz|Hz].
  - split; [by intros ?%elem_of_nil|by intros [? _]].
  - rewrite list_elem_of_fmap. split.
    + intros (r & -> & Hr). split; [done|]. exists r.
      rewrite order_rows_perm in Hr.
      apply list_elem_of_filter in Hr as [Hsel Hin]. done.
    + intros (_ & r & Hin & <- & Hsel). exists r. split; [done|].
      rewrite order_rows_perm. by apply list_elem_of_filter.
Qed.

(** X9. The partitions share out the buckets of non-negative id: no id is
    found by two partitions, and a row of the window with a non-negative id
    is found by the partition [id mod maxPartitions], which lies in
    [0, maxPartitions). A row whose id is negative and not a multiple of
    [maxPartitions] is found by no partition of that range, because SQL's
    [MOD] of a negative id is negative. This holds whatever order the
    database gives to the rows of each query. *)
Theorem scanBuckets_sharding (O O' : RowOrder) (maxPartitions : Z)
    (rows : list Row) (min max : time.Time) :
  0 < maxPartitions →
  (∀ p p' id,
     id ∈ @scanBuckets O p maxPartitions (Some rows) min max →
     id ∈ @scanBuckets O' p' maxPartitions (Some rows) min max → p = p')
  ∧ (∀ r, r ∈ rows →
       time.instant min ≤ time.instant (row_time r) < time.instant max →
       0 ≤ row_id r →
       0 ≤ row_id r mod maxPartitions < maxPartitions
       ∧ row_id r ∈ @scanBuckets O (row_id r mod maxPartitions) maxPartitions
                      (Some rows) min max)
  ∧ (∀ r p, r ∈ rows → row_id r < 0 → Z.rem (row_id r) maxPartitions ≠ 0 →
       0 ≤ p < maxPartitions →
       ¬ (row_id r ∈ @scanBuckets O p maxPartitions (Some rows) min max)).
Proof.
  intros Hmax. split; [|split].
  - intros p p' id Hp Hp'.
    apply elem_of_scanBuckets in Hp as (_ & r & _ & <- & _ & <-).
    apply elem_of_scanBuckets in Hp' as (_ & r' & _ & Hid & _ & <-).
    by rewrite Hid.
  - intros r Hin Hwin Hid.
    split; [apply Z.mod_pos_bound; lia|].
    apply elem_of_scanBuckets. split; [lia|]. exists r.
    split; [done|]. split; [done|]. split; [done|].
    apply Z.rem_mod_nonneg; lia.
  - intros r p Hin Hneg Hrem Hp Hfound.
    apply elem_of_scanBuckets in Hfound as (_ & r' & _ & Hid & _ & Hsel).
    rewrite Hid in Hsel.
    pose proof (Z.rem_nonpos (row_id r) maxPartitions ltac:(lia) ltac:(lia)).
    lia.
Qed.

Lemma scanBuckets_sharding_witness :
  scanBuckets 0 2 (Some rows_neg) (time.mkTime 35940 0) (time.mkTime 36000 0) = [4]
  ∧ scanBuckets 1 2 (Some rows_neg) (time.mkTime 35940 0) (time.mkTime 36000 0) = []
  ∧ ¬ (-3 ∈ scanBuckets 1 2 (Some rows_neg) (time.mkTime 35940 0) (time.mkTime 36000 0)).
Proof.
  split; [by vm_compute|]. split; [by vm_compute|].
  apply (proj2 (proj2 (scanBuckets_sharding listed_rows listed_rows 2 rows_neg
                         (time.mkTime 35940 0) (time.mkTime 36000 0) ltac:(lia)))
           (mkRow (-3) (time.mkTime 35960 0)) 1).
  - unfold rows_neg. apply list_elem_of_further, list_elem_of_here.
  - simpl. lia.
  - by vm_compute.
  - lia.
Defined.

(** ** The lock, without partitions *)

Lemma lockPartition_from_none maxPartitions pg fuel pass :
  maxPartitions ≤ 0 →
  lockPartition_from maxPartitions pg fuel pass
  = (replicate fuel (Sleep (10 * time.Second)), None).
Proof.
  intros Hmax. revert pass. induction fuel as [|fuel IH]; intros pass;
    cbn [lockPartition_from]; [done|].
  replace (Z.to_nat maxPartitions) with 0%nat by lia. cbn [scan].
  by rewrite IH.
Qed.

(** X10. With no partition to lock ([maxPartitions] zero or negative)
    [lockPartition] never returns: every scan is empty, it asks the
    database nothing, and it sleeps 10 seconds again and again. *)
Theorem lockPartition_without_partitions
    (maxPartitions : Z) (pg : nat → Z → lock_reply) (fuel : nat) :
  maxPartitions ≤ 0 →
  lockPartition maxPartitions pg fuel
  = (replicate fuel (Sleep (10 * time.Second)), None).
Proof. intros Hmax. by apply lockPartition_from_none. Qed.

Lemma lockPartition_without_partitions_witness :
  lockPartition 0 second_scan_grants_1 3
  = ([Sleep 10000000000; Sleep 10000000000; Sleep 10000000000], None).
Proof.
  rewrite (lockPartition_without_partitions 0 second_scan_grants_1 3 ltac:(lia)).
  reflexivity.
Defined.

(** ** [ParseToken] *)

Lemma Split_nonempty c s : strings.Split c s ≠ [].
Proof.
  destruct s as [|a s]; simpl; [done|].
  destruct (Ascii.eqb a c); [done|]. by destruct (strings.Split c s).
Qed.

Lemma SplitN_2_nonempty c s : strings.SplitN_2 c s ≠ [].
Proof.
  destruct s as [|a s]; simpl; [done|].
  destruct (Ascii.eqb a c); [done|]. by destruct (strings.SplitN_2 c s).
Qed.

Lemma Split_length c s : length (strings.Split c s) = S (strings.count c s).
Proof.
  induction s as [|a s IH]; simpl; [done|].
  destruct (Ascii.eqb a c); simpl; [by rewrite IH|].
  destruct (strings.Split c s) as [|piece pieces]; [done|]. exact IH.
Qed.

Lemma Split_one c s a :
  strings.Split c s = [a] ↔ s = a ∧ strings.count c a = 0%nat.
Proof.
  revert a. induction s as [|x s IH]; intros a; simpl.
  - split; [by intros [= <-]|by intros [<- _]].
  - destruct (Ascii.eqb_spec x c) as [->|Hne].
    + split.
      * intros [= _ Hnil]. by apply Split_nonempty in Hnil.
      * intros [<- Hc]. simpl in Hc. rewrite Ascii.eqb_refl in Hc. done.
    + pose proof (Split_nonempty c s) as Hnonempty.
      destruct (strings.Split c s) as [|piece pieces] eqn:E; [done|]. split.
      * intros [= <- ->]. destruct (proj1 (IH piece) eq_refl) as [-> Hc].
        split; [done|]. simpl. by destruct (Ascii.eqb_spec x c).
      * intros [<- Hc]. simpl in Hc. destruct (Ascii.eqb_spec x c); [done|].
        by pose proof (proj2 (IH s) (conj eq_refl Hc)) as [= -> ->].
Qed.

Lemma Split_two c s a b :
  strings.Split c s = [a; b]
  ↔ s = a +:+ String c b ∧ strings.count c a = 0%nat ∧ strings.count c b = 0%nat.
Proof.
  revert a. induction s as [|x s IH]; intros a; simpl.
  - split; [done|]. intros [Heq _]. by destruct a.
  - destruct (Ascii.eqb_spec x c) as [->|Hne].
    + split.
      * intros [= <- Hb]. apply Split_one in Hb as [-> Hc]. done.
      * intros (Heq & Ha & Hb). destruct a as [|y a]; simpl in *.
        -- injection Heq as ->. f_equal. apply Split_one. done.
        -- injection Heq as <- _. rewrite Ascii.eqb_refl in Ha. done.
    + pose proof (Split_nonempty c s) as Hnonempty.
      destruct (strings.Split c s) as [|piece pieces] eqn:E; [done|]. split.
      * intros [= <- ->]. destruct (proj1 (IH piece) eq_refl) as (-> & Ha & Hb).
        split; [done|]. split; [|done]. simpl. by destruct (Ascii.eqb_spec x c).
      * intros (Heq & Ha & Hb). destruct a as [|y a]; simpl in *.
        -- by injection Heq as ->.
        -- injection Heq as <- ->. destruct (Ascii.eqb_spec x c); [done|].
           by pose proof (proj2 (IH a) (conj eq_refl (conj Ha Hb))) as [= -> ->].
Qed.

Lemma SplitN_2_two c s a b :
  strings.SplitN_2 c s = [a; b] ↔ s = a +:+ String c b ∧ strings.count c a = 0%nat.
Proof.
  revert a. induction s as [|x s IH]; intros a; simpl.
  - split; [done|]. intros [Heq _]. by destruct a.
  - destruct (Ascii.eqb_spec x c) as [->|Hne].
    + split.
      * by intros [= <- <-].
      * intros (Heq & Ha). destruct a as [|y a]; simpl in *.
        -- by injection Heq as ->.
        -- injection Heq as <- _. rewrite Ascii.eqb_refl in Ha. done.
    + pose proof (SplitN_2_nonempty c s) as Hnonempty.
      destruct (strings.SplitN_2 c s) as [|piece pieces] eqn:E; [done|]. split.
      * intros [= <- ->]. destruct (proj1 (IH piece) eq_refl) as (-> & Ha).
        split; [done|]. simpl. by destruct (Ascii.eqb_spec x c).
      * intros (Heq & Ha). destruct a as [|y a]; simpl in *.
        -- by injection Heq as ->.
        -- injection Heq as <- ->. destruct (Ascii.eqb_spec x c); [done|].
           by pose proof (proj2 (IH a) (conj eq_refl Ha)) as [= -> ->].
Qed.

(** X11. [ParseToken] returns a token exactly when the first value of the
    [Authorization] header is some word without a space, a space, and
    credentials that decode to a user name, a colon and the token, the user
    name and the token being free of colons. Any word is accepted in front:
    the scheme is not checked. *)
Theorem ParseToken_returns (DecodeString : string → string + string)
    (header : gmap string (list string)) (token : string) :
  ParseToken DecodeString header = Returned token
  ↔ ∃ scheme credentials user others,
      header !! "Authorization"
        = Some ((scheme +:+ String space credentials) :: others)
      ∧ strings.count space scheme = 0%nat
      ∧ DecodeString credentials = inr (user +:+ String colon token)
      ∧ strings.count colon user = 0%nat
      ∧ strings.count colon token = 0%nat.
Proof.
  unfold ParseToken. split.
  - destruct (header !! "Authorization") as [[|line others]|]; [done| |done].
    destruct (strings.SplitN_2 space line) as [|scheme [|credentials [|]]] eqn:Hline;
      try done.
    destruct (DecodeString credentials) as [err|userPass] eqn:Hdec; [done|].
    destruct (strings.Split colon userPass) as [|user [|pass [|]]] eqn:Hup; try done.
    intros [= ->].
    apply SplitN_2_two in Hline as [-> Hscheme].
    apply Split_two in Hup as (-> & Huser & Htoken).
    by exists scheme, credentials, user, others.
  - intros (scheme & credentials & user & others & -> & Hscheme & Hdec & Huser & Htoken).
    rewrite (proj2 (SplitN_2_two space _ scheme credentials) (conj eq_refl Hscheme)).
    rewrite Hdec.
    by rewrite (proj2 (Split_two colon _ user token) (conj eq_refl (conj Huser Htoken))).
Qed.

(** X12. Credentials that decode to something with no colon, or with more
    than one, are refused as [Password not supplied.]: a token with a colon
    in it cannot be presented. *)
Theorem ParseToken_needs_one_colon (DecodeString : string → string + string)
    (header : gmap string (list string)) (scheme credentials userPass : string)
    (others : list string) :
  header !! "Authorization" = Some ((scheme +:+ String space credentials) :: others) →
  strings.count space scheme = 0%nat →
  DecodeString credentials = inr userPass →
  strings.count colon userPass ≠ 1%nat →
  ParseToken DecodeString header = Failed "Password not supplied.".
Proof.
  intros Hline Hscheme Hdec Hcolons. unfold ParseToken. rewrite Hline.
  rewrite (proj2 (SplitN_2_two space _ scheme credentials) (conj eq_refl Hscheme)).
  rewrite Hdec. pose proof (Split_length colon userPass) as Hlen.
  destruct (strings.Split colon userPass) as [|user [|pass [|]]]; try done.
  simpl in Hlen. lia.
Qed.

Lemma ParseToken_needs_one_colon_witness :
  ParseToken (λ _, inr "a:b:c") {[ "Authorization" := ["Basic YTpiOmM="] ]}
  = Failed "Password not supplied.".
Proof.
  apply (ParseToken_needs_one_colon _ _ "Basic" "YTpiOmM=" "a:b:c" []).
  - reflexivity.
  - reflexivity.
  - reflexivity.
  - vm_compute. lia.
Defined.

(** ** [WriteJson] *)

Lemma append_nil_r (s : string) : s +:+ "" = s.
Proof.
  induction s as [|a s IH]; [reflexivity|].
  change (String a (s +:+ "") = String a s). by f_equal.
Qed.

Lemma append_assoc (s1 s2 s3 : string) : (s1 +:+ s2) +:+ s3 = s1 +:+ s2 +:+ s3.
Proof.
  induction s1 as [|a s1 IH]; [reflexivity|].
  change (String a ((s1 +:+ s2) +:+ s3) = String a (s1 +:+ s2 +:+ s3)). by f_equal.
Qed.

(** X13. [WriteJson] ends after at most one call of itself, and these are
    its calls on the response writer. For a value that has an encoding:
    the content type is set, [WriteHeader] is called once with the status
    asked for, and the encoding and a newline are written. For a value the
    encoder refuses: the error is logged, the error reply is written in
    full with status 500, and then [WriteJson] goes on with the reply asked
    for, with no bytes: [WriteHeader] is called a second time, with the
    status asked for, after the 500, and a second newline is written after
    the error object and its newline. *)
Theorem WriteJson_calls (escape : string → string) (fuel : nat) (status : Z)
    (data : value) :
  (2 ≤ fuel)%nat →
  ∃ calls,
    WriteJson escape fuel status data = Some calls
    ∧ match data with
      | Encodable j =>
          calls = WriteJsonBytes status (render escape j)
          ∧ header_calls calls = [status]
          ∧ written calls = render escape j +:+ newline
      | Unencodable err =>
          calls = LogError err
                  :: WriteJsonBytes 500
                       (render escape (JObj [("error", JStr "Internal Server Error")]))
                  ++ WriteJsonBytes status ""
          ∧ header_calls calls = [500; status]
          ∧ written calls
            = render escape (JObj [("error", JStr "Internal Server Error")])
              +:+ newline +:+ newline
      end.
Proof.
  intros Hfuel. destruct fuel as [|[|fuel]]; [lia|lia|].
  destruct data as [err|j].
  - cbn [WriteJson Marshal internal_error].
    generalize (render escape (JObj [("error", JStr "Internal Server Error")])).
    intros b. eexists. split; [reflexivity|]. split; [reflexivity|].
    split; [reflexivity|]. unfold written, WriteJsonBytes.
    cbn [app fold_right].
    change ("" +:+ newline +:+ "") with (newline +:+ "").
    by rewrite !append_nil_r.
  - cbn [WriteJson Marshal]. generalize (render escape j). intros b.
    eexists. split; [reflexivity|]. split; [reflexivity|].
    split; [reflexivity|]. unfold written, WriteJsonBytes. cbn [fold_right].
    by rewrite append_nil_r.
Qed.

Lemma WriteJson_calls_witness :
  header_calls <$> WriteJson id 2 200 (Unencodable "unsupported type")
  = Some [500; 200].
Proof.
  destruct (WriteJson_calls id 2 200 (Unencodable "unsupported type"))
    as (calls & Hrun & _ & Hstatus & _); [lia|].
  rewrite Hrun. simpl. by rewrite Hstatus.
Defined.

(** ** What [ff] writes, read back *)

Lemma round_half_even_nearest num den :
  0 ≤ num → 0 < den →
  0 ≤ round_half_even num den
  ∧ 2 * Z.abs (num - round_half_even num den * den) ≤ den
  ∧ (2 * Z.abs (num - round_half_even num den * den) = den →
     Z.even (round_half_even num den) = true).
Proof.
  intros Hnum Hden. unfold round_half_even.
  pose proof (Z.div_mod num den ltac:(lia)) as Hdm.
  pose proof (Z.mod_pos_bound num den Hden) as Hr.
  assert (0 ≤ num / den) as Hq by (apply Z.div_pos; lia).
  destruct (Z.ltb_spec (2 * (num mod den)) den) as [Hlt|Hge].
  - split; [done|]. split; [lia|lia].
  - destruct (Z.eqb_spec (2 * (num mod den)) den) as [Heq|Hne].
    + destruct (Z.even (num / den)) eqn:Heven.
      * split; [done|]. split; [lia|done].
      * split; [lia|]. split; [lia|]. intros _.
        rewrite Z.add_1_r, Z.even_succ. rewrite <- Z.negb_even. by rewrite Heven.
    + split; [lia|]. split; [lia|lia].
Qed.

Lemma digit_value_digit_char d : digit_value (digit_char d) = d mod 10.
Proof.
  unfold digit_value, digit_char.
  pose proof (Z.mod_pos_bound d 10 ltac:(lia)) as Hd.
  rewrite nat_ascii_embedding by lia. lia.
Qed.

Lemma read_digits_frac5 q : read_digits (frac5 q) = q mod 100000.
Proof.
  unfold read_digits, frac5. cbn [list_ascii_of_string fold_left].
  rewrite !digit_value_digit_char. Z.to_euclidean_division_equations. lia.
Qed.

Lemma read_decimal_decimal n : read_decimal (decimal n) = Some n.
Proof.
  unfold read_decimal, decimal. pose proof (DecimalN.Unsigned.of_to n) as Hn.
  destruct (N.to_uint n) as [|d|d|d|d|d|d|d|d|d|d] eqn:E;
    [by rewrite NilZero.usu_nil, <- Hn|..];
    rewrite NilZero.usu by done; cbn [fmap option_fmap option_map]; by rewrite Hn.
Qed.

Lemma count_digits c s :
  is_digit c = false → all_digits s = true → strings.count c s = 0%nat.
Proof.
  intros Hc. unfold all_digits. induction s as [|a s IH]; [done|].
  cbn [list_ascii_of_string forallb strings.count].
  intros [Ha Hs]%andb_prop. rewrite (IH Hs).
  destruct (Ascii.eqb_spec a c) as [->|]; [congruence|done].
Qed.

Lemma read_fixed5_fixed5 neg q :
  0 ≤ q → read_fixed5 (fixed5 neg q) = Some (neg, q).
Proof.
  intros Hq. unfold read_fixed5, fixed5.
  assert (strings.Split dot (decimal (Z.to_N (q / 100000)) +:+ "." +:+ frac5 q)
          = [decimal (Z.to_N (q / 100000)); frac5 q]) as Hsplit.
  { apply Split_two. split; [done|]. split.
    - apply count_digits; [done|apply all_digits_decimal].
    - apply count_digits; [done|apply all_digits_frac5]. }
  assert (∀ rest, match decimal (Z.to_N (q / 100000)) +:+ rest with
                  | String a s' =>
                      if Ascii.eqb a minus
                      then (true, s')
                      else (false, decimal (Z.to_N (q / 100000)) +:+ rest)
                  | EmptyString => (false, decimal (Z.to_N (q / 100000)) +:+ rest)
                  end = (false, decimal (Z.to_N (q / 100000)) +:+ rest)) as Hhead.
  { intros rest. pose proof (all_digits_decimal (Z.to_N (q / 100000))) as Hdig.
    pose proof (decimal_nonempty (Z.to_N (q / 100000))) as Hne.
    destruct (decimal (Z.to_N (q / 100000))) as [|a s'] eqn:E; [done|].
    change (String a s' +:+ rest) with (String a (s' +:+ rest)).
    unfold all_digits in Hdig. cbn [list_ascii_of_string forallb] in Hdig.
    apply andb_prop in Hdig as [Ha _].
    destruct (Ascii.eqb_spec a minus) as [->|]; [done|done]. }
  assert (Z.of_N (Z.to_N (q / 100000)) * 100000 + read_digits (frac5 q) = q) as Hval.
  { rewrite read_digits_frac5.
    rewrite Z2N.id by (apply Z.div_pos; lia).
    pose proof (Z.div_mod q 100000 ltac:(lia)). lia. }
  destruct neg.
  - change ("-" +:+ decimal (Z.to_N (q / 100000)) +:+ "." +:+ frac5 q)
      with (String minus (decimal (Z.to_N (q / 100000)) +:+ "." +:+ frac5 q)).
    cbv beta iota. rewrite Ascii.eqb_refl. cbv beta iota. rewrite Hsplit.
    change (String.length (frac5 q)) with 5%nat.
    rewrite all_digits_frac5, read_decimal_decimal.
    cbn [Nat.eqb andb fmap option_fmap option_map]. by rewrite Hval.
  - change ("" +:+ decimal (Z.to_N (q / 100000)) +:+ "." +:+ frac5 q)
      with (decimal (Z.to_N (q / 100000)) +:+ "." +:+ frac5 q).
    rewrite Hhead. cbv beta iota. rewrite Hsplit.
    change (String.length (frac5 q)) with 5%nat.
    rewrite all_digits_frac5, read_decimal_decimal.
    cbn [Nat.eqb andb fmap option_fmap option_map]. by rewrite Hval.
Qed.

(** X14. What [ff] writes for a finite value [±m·2^e] reads back as the
    sign of the value and the multiple of [10^-5] nearest to its magnitude:
    exact when [e] is not negative, and otherwise at most half a unit off,
    a tie going to the even multiple. A zero reads back as zero with its
    sign. *)
Theorem ff_reads_back_nearest (neg : bool) (m : positive) (e : Z) :
  read_fixed5 (ff (S754_finite neg m e)) = Some (neg, scaled5 m e)
  ∧ read_fixed5 (ff (S754_zero neg)) = Some (neg, 0)
  ∧ (0 ≤ e → scaled5 m e = Z.pos m * 2 ^ e * 100000)
  ∧ (e < 0 →
     2 * Z.abs (Z.pos m * 100000 - scaled5 m e * 2 ^ (- e)) ≤ 2 ^ (- e)
     ∧ (2 * Z.abs (Z.pos m * 100000 - scaled5 m e * 2 ^ (- e)) = 2 ^ (- e) →
        Z.even (scaled5 m e) = true)).
Proof.
  assert (0 ≤ scaled5 m e) as Hpos.
  { unfold scaled5. destruct (Z.leb_spec 0 e).
    - pose proof (Z.pow_nonneg 2 e ltac:(lia)). nia.
    - apply round_half_even_nearest; [lia|]. apply Z.pow_pos_nonneg; lia. }
  split; [by apply read_fixed5_fixed5|]. split; [by apply read_fixed5_fixed5|].
  split.
  - intros He. unfold scaled5. by destruct (Z.leb_spec 0 e); [|lia].
  - intros He. unfold scaled5. destruct (Z.leb_spec 0 e); [lia|].
    apply round_half_even_nearest; [lia|]. apply Z.pow_pos_nonneg; lia.
Qed.

(** ** Start-up *)

Lemma decimal_head n : ∃ a r, decimal n = String a r ∧ is_digit a = true.
Proof.
  pose proof (all_digits_decimal n) as Hdig.
  pose proof (decimal_nonempty n) as Hne.
  destruct (decimal n) as [|a r]; [done|]. exists a, r. split; [done|].
  unfold all_digits in Hdig. cbn [list_ascii_of_string forallb] in Hdig.
  by apply andb_prop in Hdig as [Ha _].
Qed.

Lemma uint_of_string_decimal n :
  ∃ d, NilZero.uint_of_string (decimal n) = Some d ∧ N.of_uint d = n.
Proof.
  pose proof (read_decimal_decimal n) as Hread. unfold read_decimal in Hread.
  destruct (NilZero.uint_of_string (decimal n)) as [d|]; [|done].
  exists d. split; [done|]. by injection Hread.
Qed.

Lemma Atoi_fi intSize n :
  - 2 ^ (intSize - 1) ≤ n < 2 ^ (intSize - 1) → Atoi intSize (fi n) = inr n.
Proof.
  intros Hn. unfold Atoi, fi.
  destruct (uint_of_string_decimal (Z.abs_N n)) as (d & Hd & Hval).
  destruct (Z.ltb_spec n 0) as [Hneg|Hpos].
  - change ("-" +:+ decimal (Z.abs_N n)) with (String minus (decimal (Z.abs_N n))).
    cbv beta iota. rewrite Ascii.eqb_refl. cbv beta iota. rewrite Hd.
    cbv zeta. rewrite Hval, N2Z.inj_abs_N.
    destruct (Z.leb_spec (Z.abs n) (2 ^ (intSize - 1))); [|lia].
    f_equal. lia.
  - change ("" +:+ decimal (Z.abs_N n)) with (decimal (Z.abs_N n)).
    destruct (decimal_head (Z.abs_N n)) as (a & r & Heq & Ha).
    rewrite Heq in Hd |- *. cbv beta iota.
    destruct (Ascii.eqb_spec a minus) as [->|_]; [done|].
    destruct (Ascii.eqb_spec a plus) as [->|_]; [done|].
    cbv beta iota. rewrite Hd. cbv zeta. rewrite Hval, N2Z.inj_abs_N.
    destruct (Z.ltb_spec (Z.abs n) (2 ^ (intSize - 1))); [|lia].
    f_equal. lia.
Qed.

(** X15. [init] takes [maxPartitions] from the environment: a variable
    that holds the decimal form of an [int] yields that number, zero and
    negative numbers included, and a variable that is not set ends the
    process. A number that is not positive passes [init], and
    [lockPartition] then never returns: it only sleeps. *)
Theorem init_then_lockPartition (intSize : Z) (env : gmap string string) (n : Z)
    (pg : nat → Z → lock_reply) (fuel : nat) :
  - 2 ^ (intSize - 1) ≤ n < 2 ^ (intSize - 1) →
  env !! "MAX_LIBRATO_PROCS" = Some (fi n) →
  init_maxPartitions intSize env = Returned n
  ∧ init_maxPartitions intSize (delete "MAX_LIBRATO_PROCS" env) = Failed "invalid syntax"
  ∧ (n ≤ 0 →
     lockPartition n pg fuel = (replicate fuel (Sleep (10 * time.Second)), None)).
Proof.
  intros Hn Henv. unfold init_maxPartitions. split; [|split].
  - rewrite Henv. change (default "" (Some (fi n))) with (fi n). cbv zeta.
    by rewrite (Atoi_fi intSize n Hn).
  - by rewrite lookup_delete_eq.
  - intros Hle. by apply lockPartition_from_none.
Qed.

Lemma init_then_lockPartition_witness :
  init_maxPartitions 64 {[ "MAX_LIBRATO_PROCS" := "0" ]} = Returned 0
  ∧ lockPartition 0 second_scan_grants_1 2
    = ([Sleep 10000000000; Sleep 10000000000], None).
Proof.
  destruct (init_then_lockPartition 64 {[ "MAX_LIBRATO_PROCS" := "0" ]} 0
              second_scan_grants_1 2) as (Hinit & _ & Hlock);
    [simpl; lia|reflexivity|].
  split; [exact Hinit|]. rewrite Hlock by lia. reflexivity.
Defined.
